(** * Session core of the contacts REST API: tokens, users and the user cache

    A shallow embedding of [src/services/auth.py], [src/repository/users.py]
    and [src/routes/auth.py].  The relational store is a table of [User] rows,
    the Redis instance a finite map from keys to pickled snapshots, and every
    repository function or route handler a computation that threads both and
    may raise a Python exception. *)

From stdpp Require Import gmap strings list fin_maps.

Open Scope Z_scope.
Open Scope string_scope.

(** ** Exceptions and the computation monad *)

(** The exceptions the modelled code can raise.  [HTTPException] carries the
    status code and the detail message (response headers are not modelled);
    the others are the Python or library exceptions that the handlers do not
    catch. *)
Inductive exn :=
  | HTTPException (status_code : Z) (detail : string)
  | KeyError (key : string)
  | AttributeError
  | TypeError
  | IntegrityError
  | LibraryError (name : string).

Global Instance exn_eq_dec : EqDecision exn.
Proof. solve_decision. Defined.

Definition HTTP_400_BAD_REQUEST : Z := 400.
Definition HTTP_401_UNAUTHORIZED : Z := 401.
Definition HTTP_409_CONFLICT : Z := 409.
Definition HTTP_422_UNPROCESSABLE_ENTITY : Z := 422.

Inductive outcome (A : Type) :=
  | Return (a : A)
  | Raise (e : exn).
Arguments Return {A} a.
Arguments Raise {A} e.

(** [Unauthorized] in the words of the specification: an [HTTPException]
    with status 401, whatever its message. *)
Definition is_unauthorized {A} (r : outcome A) : Prop :=
  match r with
  | Raise (HTTPException c _) => c = HTTP_401_UNAUTHORIZED
  | _ => False
  end.

Definition is_http {A} (r : outcome A) : Prop :=
  match r with
  | Raise (HTTPException _ _) => True
  | _ => False
  end.

Definition returns {A} (r : outcome A) : Prop :=
  match r with Return _ => True | Raise _ => False end.

(** ** Data model ([src/database/models.py], [src/schemas.py]) *)

Module models.

Record User := mkUser {
  id : Z;
  username : string;
  email : string;
  password : string;
  confirmed : bool;
  avatar : option string;
  created_at : Z;
  refresh_token : option string
}.

Global Instance User_eq_dec : EqDecision User.
Proof. solve_decision. Defined.

(** Attribute assignments [user.<column> = value]. *)
Definition set_refresh_token (t : option string) (u : User) : User :=
  mkUser (id u) (username u) (email u) (password u) (confirmed u)
         (avatar u) (created_at u) t.
Definition set_confirmed (b : bool) (u : User) : User :=
  mkUser (id u) (username u) (email u) (password u) b
         (avatar u) (created_at u) (refresh_token u).
Definition set_password (p : string) (u : User) : User :=
  mkUser (id u) (username u) (email u) p (confirmed u)
         (avatar u) (created_at u) (refresh_token u).
Definition set_avatar (a : option string) (u : User) : User :=
  mkUser (id u) (username u) (email u) (password u) (confirmed u)
         a (created_at u) (refresh_token u).

End models.

Module schemas.

Record UserModel := mkUserModel {
  username : string;
  email : string;
  password : string
}.

Record TokenModel := mkTokenModel {
  access_token : string;
  refresh_token : string;
  token_type : string
}.

Record RequestPassword := mkRequestPassword {
  rp_email : string;
  rp_password : string
}.

End schemas.

Abbreviation User := models.User.

(** ** The world: store, cache and queued background tasks *)

(** [pickle.dumps] of an [Optional[User]]: a detached snapshot of the value
    at the time of the call.  [loads (dumps x) = x]; a pickle is never the
    empty byte string, so [if user_dump:] holds exactly when the key is
    present. *)
Inductive pickled := Pickle (snapshot : option User).

Definition dumps (u : option User) : pickled := Pickle u.
Definition loads (p : pickled) : option User :=
  match p with Pickle u => u end.

Global Instance pickled_eq_dec : EqDecision pickled.
Proof. solve_decision. Defined.

(** A task handed to [background_tasks.add_task]. *)
Inductive task :=
  | send_email (email username base_url : string)
  | send_email_reset_password (email username base_url : string).

(** [users] is the [users] table in insertion order, [next_id] the value its
    primary-key sequence hands out next, [redis_db] the module-level Redis
    client of [src/repository/users.py]. *)
Record World := mkWorld {
  users : list User;
  next_id : Z;
  redis_db : gmap string pickled;
  background_tasks : list task
}.

Definition M (A : Type) : Type := World → outcome A * World.

Definition ret {A} (a : A) : M A := λ w, (Return a, w).
Definition raise {A} (e : exn) : M A := λ w, (Raise e, w).
Definition bind {A B} (m : M A) (k : A → M B) : M B :=
  λ w, match m w with
       | (Return a, w') => k a w'
       | (Raise e, w') => (Raise e, w')
       end.

Global Instance M_ret : MRet M := @ret.
Global Instance M_bind : MBind M := λ A B k m, bind m k.

Definition result {A} (m : M A) (w : World) : outcome A := fst (m w).
Definition world_after {A} (m : M A) (w : World) : World := snd (m w).

(** *** Store primitives *)

Definition has_email (e : string) (u : User) : Prop := models.email u = e.

Global Instance has_email_dec e u : Decision (has_email e u).
Proof. unfold has_email. apply _. Defined.

(** [db.query(User).filter(User.email == email).first()]: the position of
    the first matching row (the identity of the mapped object) and the row. *)
Definition query_first (e : string) : M (option (nat * User)) :=
  λ w, (Return (list_find (has_email e) (users w)), w).

(** [db.commit()] after attribute assignments on the mapped object at
    position [i]. *)
Definition commit_row (i : nat) (u : User) : M unit :=
  λ w, (Return tt,
        mkWorld (<[i := u]> (users w)) (next_id w) (redis_db w)
                (background_tasks w)).

(** [db.add(new_user); db.commit(); db.refresh(new_user)]: the [unique]
    constraint on [email] makes the commit raise when a row with that email
    exists; otherwise the row is appended with the server-side defaults
    ([id] from the sequence, [confirmed = False], [created_at = now()],
    [refresh_token = NULL]). *)
Definition insert_user (username email password : string)
    (avatar : option string) (now : Z) : M User :=
  λ w, match list_find (has_email email) (users w) with
       | Some _ => (Raise IntegrityError, w)
       | None =>
           let u := models.mkUser (next_id w) username email password false
                                  avatar now None in
           (Return u,
            mkWorld (users w ++ [u]) (next_id w + 1) (redis_db w)
                    (background_tasks w))
       end.

(** *** Cache primitives *)

Definition redis_get (k : string) : M (option pickled) :=
  λ w, (Return (redis_db w !! k), w).

Definition redis_set (k : string) (v : pickled) : M unit :=
  λ w, (Return tt,
        mkWorld (users w) (next_id w) (<[k := v]> (redis_db w))
                (background_tasks w)).

Definition redis_delete (k : string) : M unit :=
  λ w, (Return tt,
        mkWorld (users w) (next_id w) (delete k (redis_db w))
                (background_tasks w)).

Definition add_task (t : task) : M unit :=
  λ w, (Return tt,
        mkWorld (users w) (next_id w) (redis_db w)
                (background_tasks w ++ [t])).

(** ** [src/repository/users.py] *)

Module repository_users.

Definition get_user_by_email_from_db (email : string) : M (option (nat * User)) :=
  query_first email.

Definition get_user_by_email (email : string) : M (option User) :=
  user_dump ← redis_get email;
  match user_dump with
  | None =>
      user ← query_first email;
      redis_set email (dumps (snd <$> user));;
      ret (snd <$> user)
  | Some d => ret (loads d)
  end.

(** The trailing [user_dump = redis_db.get(k); if user_dump: delete(k)]. *)
Definition drop_cached (k : string) : M unit :=
  user_dump ← redis_get k;
  match user_dump with
  | Some _ => redis_delete k
  | None => ret tt
  end.

Definition create_user (body : schemas.UserModel) (now : Z) : M User :=
  new_user ← insert_user (schemas.username body) (schemas.email body)
                         (schemas.password body) (Some "") now;
  drop_cached (models.email new_user);;
  ret new_user.

(** In the four updates [user] is the row found in the store; when there
    is none the attribute assignment on [None] raises. *)
Definition update_token (cache_user : User) (token : option string) : M unit :=
  user ← get_user_by_email_from_db (models.email cache_user);
  match user with
  | None => raise AttributeError
  | Some (i, user) =>
      let user := models.set_refresh_token token user in
      commit_row i user;;
      drop_cached (models.email user)
  end.

Definition confirmed_email (email : string) : M unit :=
  user ← get_user_by_email_from_db email;
  match user with
  | None => raise AttributeError
  | Some (i, user) =>
      let user := models.set_confirmed true user in
      commit_row i user;;
      drop_cached email
  end.

Definition update_password (cache_user : User) (password : string) : M unit :=
  user ← get_user_by_email_from_db (models.email cache_user);
  match user with
  | None => raise AttributeError
  | Some (i, user) =>
      let user := models.set_password password user in
      commit_row i user;;
      drop_cached (models.email user)
  end.

Definition update_avatar (email : string) (url : string) : M User :=
  user ← get_user_by_email_from_db email;
  match user with
  | None => raise AttributeError
  | Some (i, user) =>
      let user := models.set_avatar (Some url) user in
      commit_row i user;;
      drop_cached email;;
      ret user
  end.

End repository_users.

(** ** External libraries used by [src/services/auth.py] *)

(** The values a JWT claim takes in this program. *)
Inductive jval :=
  | JStr (s : string)
  | JNum (n : Z)
  | JNull.

Global Instance jval_eq_dec : EqDecision jval.
Proof. solve_decision. Defined.

(** python-jose with the process-wide [SECRET_KEY] and [ALGORITHM]:
    [jwt_encode] signs a claim dict, [jwt_decode now token] is the payload of
    [jwt.decode] at clock reading [now], or [None] where it raises
    [JWTError] (bad signature, malformed token, expiry). *)
Class Jose := {
  jwt_encode : gmap string jval → string;
  jwt_decode : Z → string → option (gmap string jval)
}.

(** passlib's [CryptContext(schemes=["bcrypt"])]: [pwd_hash salt secret] is
    the digest computed with the random [salt]; [pwd_verify] is the library
    call, which like any call returns or raises. *)
Class CryptContext := {
  pwd_hash : string → string → string;
  pwd_verify : string → string → outcome bool
}.

Definition lift {A} (r : outcome A) : M A := λ w, (r, w).

(** A claim value used where the code expects [str].  python-jose only
    yields string subjects, so the other branch is not taken on payloads
    that it decoded; it is there to keep the functions total. *)
Definition as_str (v : jval) : outcome string :=
  match v with
  | JStr s => Return s
  | _ => Raise TypeError
  end.

(** Python truthiness of an [Optional[float]] argument. *)
Definition truthy (d : option Z) : bool :=
  match d with
  | Some n => negb (Z.eqb n 0)
  | None => false
  end.

Definition minutes (n : Z) : Z := n * 60.
Definition days (n : Z) : Z := n * 86400.

(** ** [src/services/auth.py]: class [Auth] *)

Module auth_service.
Section Auth.
Context `{Jose, CryptContext}.

Definition verify_password (plain_password hashed_password : string)
    : outcome bool :=
  pwd_verify plain_password hashed_password.

Definition get_password_hash (salt password : string) : string :=
  pwd_hash salt password.

(** The expiry computed by the token constructors; times are in seconds,
    [now] is the reading of [datetime.now()]. *)
Definition access_expire (expires_delta_sec : option Z) (now : Z) : Z :=
  if truthy expires_delta_sec
  then now + default 0 expires_delta_sec
  else now + minutes 15.

Definition refresh_expire (expires_delta_sec : option Z) (now : Z) : Z :=
  if truthy expires_delta_sec
  then now + default 0 expires_delta_sec
  else now + days 7.

Definition email_expire (now : Z) : Z := now + days 7.

(** [to_encode] after [to_encode.update({...})]. *)
Definition access_claims (data_payload : gmap string jval)
    (expires_delta_sec : option Z) (now : Z) : gmap string jval :=
  <["scope" := JStr "access_token"]>
    (<["exp" := JNum (access_expire expires_delta_sec now)]>
      (<["iat" := JNum now]> data_payload)).

Definition refresh_claims (data_payload : gmap string jval)
    (expires_delta_sec : option Z) (now : Z) : gmap string jval :=
  <["scope" := JStr "refresh_token"]>
    (<["exp" := JNum (refresh_expire expires_delta_sec now)]>
      (<["iat" := JNum now]> data_payload)).

Definition email_claims (data : gmap string jval) (now : Z)
    : gmap string jval :=
  <["exp" := JNum (email_expire now)]> (<["iat" := JNum now]> data).

Definition create_access_token (data_payload : gmap string jval)
    (expires_delta_sec : option Z) (now : Z) : string :=
  jwt_encode (access_claims data_payload expires_delta_sec now).

Definition create_refresh_token (data_payload : gmap string jval)
    (expires_delta_sec : option Z) (now : Z) : string :=
  jwt_encode (refresh_claims data_payload expires_delta_sec now).

Definition create_email_token (data : gmap string jval) (now : Z) : string :=
  jwt_encode (email_claims data now).

Definition decode_refresh_token (refresh_token : string) (now : Z)
    : outcome jval :=
  match jwt_decode now refresh_token with
  | None =>
      Raise (HTTPException HTTP_401_UNAUTHORIZED
                           "Could not validate credentials")
  | Some payload =>
      match payload !! "scope" with
      | None => Raise (KeyError "scope")
      | Some scope =>
          if decide (scope = JStr "refresh_token") then
            match payload !! "sub" with
            | None => Raise (KeyError "sub")
            | Some email => Return email
            end
          else Raise (HTTPException HTTP_401_UNAUTHORIZED
                                    "Invalid scope for token")
      end
  end.

Definition credentials_exception : exn :=
  HTTPException HTTP_401_UNAUTHORIZED "Could not validate credentials".

Definition get_current_user (token : string) (now : Z) : M User :=
  email ← lift
    match jwt_decode now token with
    | None => Raise credentials_exception
    | Some payload =>
        match payload !! "scope" with
        | None => Raise (KeyError "scope")
        | Some scope =>
            if decide (scope = JStr "access_token") then
              match payload !! "sub" with
              | None => Raise (KeyError "sub")
              | Some JNull => Raise credentials_exception
              | Some email => as_str email
              end
            else Raise credentials_exception
        end
    end;
  user ← repository_users.get_user_by_email email;
  match user with
  | None => raise credentials_exception
  | Some user => mret user
  end.

Definition get_email_from_token (token : string) (now : Z) : outcome jval :=
  match jwt_decode now token with
  | None =>
      Raise (HTTPException HTTP_422_UNPROCESSABLE_ENTITY
                           "Invalid token for email verification")
  | Some payload =>
      match payload !! "sub" with
      | None => Raise (KeyError "sub")
      | Some email => Return email
      end
  end.

End Auth.
End auth_service.

(** ** [src/routes/auth.py] *)

Module routes_auth.
Section Routes.
Context `{Jose, CryptContext}.

Definition sub_claim (email : string) : gmap string jval :=
  {[ "sub" := JStr email ]}.

(** [POST /auth/signup] *)
Definition signup (body : schemas.UserModel) (base_url salt : string)
    (now : Z) : M (User * string) :=
  exist_user ← repository_users.get_user_by_email (schemas.email body);
  match exist_user with
  | Some _ => raise (HTTPException HTTP_409_CONFLICT "Account already exists")
  | None =>
      let body := schemas.mkUserModel (schemas.username body)
                    (schemas.email body)
                    (auth_service.get_password_hash salt (schemas.password body)) in
      new_user ← repository_users.create_user body now;
      add_task (send_email (models.email new_user)
                           (models.username new_user) base_url);;
      mret (new_user,
            "User successfully created. Check your email for confirmation.")
  end.

(** [POST /auth/login]; [username] carries the email. *)
Definition login (username password : string) (now : Z)
    : M schemas.TokenModel :=
  user ← repository_users.get_user_by_email username;
  match user with
  | None => raise (HTTPException HTTP_401_UNAUTHORIZED "Invalid email")
  | Some user =>
      if negb (models.confirmed user) then
        raise (HTTPException HTTP_401_UNAUTHORIZED "Email not confirmed")
      else
        ok ← lift (auth_service.verify_password password
                                                (models.password user));
        if negb ok then
          raise (HTTPException HTTP_401_UNAUTHORIZED "Invalid password")
        else
          let access_token :=
            auth_service.create_access_token
              (sub_claim (models.email user)) None now in
          let refresh_token :=
            auth_service.create_refresh_token
              (sub_claim (models.email user)) None now in
          repository_users.update_token user (Some refresh_token);;
          mret (schemas.mkTokenModel access_token refresh_token "bearer")
  end.

(** [GET /auth/refresh_token]; [token] is [credentials.credentials]. *)
Definition refresh_token (token : string) (now : Z)
    : M schemas.TokenModel :=
  email ← lift (auth_service.decode_refresh_token token now);
  email ← lift (as_str email);
  user ← repository_users.get_user_by_email email;
  match user with
  | None => raise AttributeError
  | Some user =>
      if decide (models.refresh_token user ≠ Some token) then
        repository_users.update_token user None;;
        raise (HTTPException HTTP_401_UNAUTHORIZED "Invalid refresh token")
      else
        let access_token :=
          auth_service.create_access_token (sub_claim email) None now in
        let refresh_token :=
          auth_service.create_refresh_token (sub_claim email) None now in
        repository_users.update_token user (Some refresh_token);;
        mret (schemas.mkTokenModel access_token refresh_token "bearer")
  end.

(** [GET /auth/confirmed_email/{token}] *)
Definition confirmed_email (token : string) (now : Z) : M string :=
  email ← lift (auth_service.get_email_from_token token now);
  email ← lift (as_str email);
  user ← repository_users.get_user_by_email email;
  match user with
  | None => raise (HTTPException HTTP_400_BAD_REQUEST "Verification error")
  | Some user =>
      if models.confirmed user then
        mret "Your email is already confirmed"
      else
        repository_users.confirmed_email email;;
        mret "Email confirmed"
  end.

(** [POST /auth/request_email] *)
Definition request_email (email base_url : string) : M string :=
  user ← repository_users.get_user_by_email email;
  match user with
  | Some user =>
      if models.confirmed user then
        mret "Your email is already confirmed"
      else
        add_task (send_email (models.email user) (models.username user)
                             base_url);;
        mret "Check your email for confirmation."
  | None => mret "Check your email for confirmation."
  end.

(** [POST /auth/password_reset] (the handler is a second function named
    [request_email] in the source). *)
Definition password_reset (email base_url : string) : M string :=
  user ← repository_users.get_user_by_email email;
  match user with
  | Some user =>
      add_task (send_email_reset_password (models.email user)
                                          (models.username user) base_url);;
      mret "Check your email for instruction."
  | None => mret "Check your email for instruction."
  end.

(** [GET /auth/confirm_password_reset/{token}] *)
Definition confirm_password_reset (token : string) (now : Z)
    : M (string * string) :=
  email ← lift (auth_service.get_email_from_token token now);
  email ← lift (as_str email);
  user ← repository_users.get_user_by_email email;
  match user with
  | None =>
      raise (HTTPException HTTP_400_BAD_REQUEST
                           "Confirm password reset error")
  | Some _ => mret (email, "User confirmed password reset")
  end.

(** [POST /auth/new_password] (the handler is a second function named
    [signup] in the source). *)
Definition new_password (body : schemas.RequestPassword) (salt : string)
    : M string :=
  user ← repository_users.get_user_by_email (schemas.rp_email body);
  match user with
  | None => raise (HTTPException HTTP_400_BAD_REQUEST "Invalid email")
  | Some user =>
      let password_hash :=
        auth_service.get_password_hash salt (schemas.rp_password body) in
      repository_users.update_password user password_hash;;
      mret "Password updated"
  end.

End Routes.
End routes_auth.

(** ** Vocabulary of the statements *)

(** The record the store holds for an email. *)
Definition find_user (e : string) (w : World) : option User :=
  snd <$> list_find (has_email e) (users w).

(** Every cache entry is the snapshot of what the store holds now (a cached
    absence included). *)
Definition coherent (w : World) : Prop :=
  ∀ e d, redis_db w !! e = Some d → loads d = find_user e w.

Definition init : World := mkWorld [] 1 ∅ [].

(** The operations that reach the user table.  [GetCurrentUser] is the
    dependency guarding every contacts route; [UpdateAvatar] is the
    repository call behind the avatar route. *)
Inductive request :=
  | Signup (body : schemas.UserModel) (base_url salt : string) (now : Z)
  | Login (username password : string) (now : Z)
  | RefreshToken (token : string) (now : Z)
  | ConfirmedEmail (token : string) (now : Z)
  | RequestEmail (email base_url : string)
  | PasswordReset (email base_url : string)
  | ConfirmPasswordReset (token : string) (now : Z)
  | NewPassword (body : schemas.RequestPassword) (salt : string)
  | GetCurrentUser (token : string) (now : Z)
  | UpdateAvatar (email url : string).

Section Handle.
Context `{Jose, CryptContext}.

Definition handle (r : request) (w : World) : World :=
  match r with
  | Signup body base_url salt now =>
      world_after (routes_auth.signup body base_url salt now) w
  | Login username password now =>
      world_after (routes_auth.login username password now) w
  | RefreshToken token now =>
      world_after (routes_auth.refresh_token token now) w
  | ConfirmedEmail token now =>
      world_after (routes_auth.confirmed_email token now) w
  | RequestEmail email base_url =>
      world_after (routes_auth.request_email email base_url) w
  | PasswordReset email base_url =>
      world_after (routes_auth.password_reset email base_url) w
  | ConfirmPasswordReset token now =>
      world_after (routes_auth.confirm_password_reset token now) w
  | NewPassword body salt =>
      world_after (routes_auth.new_password body salt) w
  | GetCurrentUser token now =>
      world_after (auth_service.get_current_user token now) w
  | UpdateAvatar email url =>
      world_after (repository_users.update_avatar email url) w
  end.

Definition run (rs : list request) (w : World) : World :=
  foldl (λ w r, handle r w) w rs.

Inductive reachable : World → Prop :=
  | reachable_init : reachable init
  | reachable_step r w : reachable w → reachable (handle r w).

End Handle.

(** ** The front end of passlib's [CryptContext] *)

(** What the library documents for [CryptContext(schemes=["bcrypt"]).verify]:
    the scheme of the digest is identified by its prefix, a digest that no
    configured scheme claims raises [UnknownHashError], and an identified
    digest goes to the scheme's [handler]. *)
Module passlib.

Definition bcrypt_idents : list string :=
  ["$2$"; "$2a$"; "$2b$"; "$2x$"; "$2y$"].

Definition identify (hash : string) : bool :=
  existsb (λ ident, String.prefix ident hash) bcrypt_idents.

Definition verify (handler : string → string → outcome bool)
    (secret hash : string) : outcome bool :=
  if identify hash then handler secret hash
  else Raise (LibraryError "UnknownHashError").

Definition bcrypt_context (hash : string → string → string)
    (handler : string → string → outcome bool) : CryptContext :=
  {| pwd_hash := hash; pwd_verify := verify handler |}.

End passlib.

(** ** Concrete libraries for running the handlers on examples *)

Module fixtures.

(** A stand-in for the bcrypt primitive over two salts: the digest shows
    salt and secret. *)
Definition hashpw (salt secret : string) : string :=
  "$2b$12$" ++ salt ++ "$" ++ secret.

Definition checkpw (secret hash : string) : outcome bool :=
  Return (existsb (λ salt, bool_decide (hash = hashpw salt secret))
                  ["s1"; "s2"]).

Definition context : CryptContext := passlib.bcrypt_context hashpw checkpw.

(** A table-driven codec for one subject: enough to decode the tokens the
    examples present and to issue new ones. *)
Definition alice_email : string := "alice@example.com".

Definition claims (scope : option string) (iat exp : Z) : gmap string jval :=
  let base : gmap string jval :=
    <["exp" := JNum exp]> (<["iat" := JNum iat]> {[ "sub" := JStr alice_email ]}) in
  match scope with
  | Some s => <["scope" := JStr s]> base
  | None => base
  end.

Definition encode (p : gmap string jval) : string :=
  match p !! "scope" with
  | Some (JStr "refresh_token") =>
      if decide (p !! "iat" = Some (JNum 100)) then "alice.refresh.1"
      else "alice.refresh.2"
  | Some (JStr "access_token") => "alice.access.1"
  | _ => "alice.email.1"
  end.

Definition decode (now : Z) (token : string) : option (gmap string jval) :=
  if decide (token = "alice.refresh.0") then
    Some (claims (Some "refresh_token") 0 (days 7))
  else if decide (token = "alice.refresh.1") then
    Some (claims (Some "refresh_token") 100 (100 + days 7))
  else if decide (token = "alice.refresh.2") then
    Some (claims (Some "refresh_token") 200 (200 + days 7))
  else if decide (token = "alice.access.1") then
    Some (claims (Some "access_token") 100 (100 + minutes 15))
  else if decide (token = "alice.email.1") then
    Some (claims None 100 (100 + days 7))
  else None.

Definition jose : Jose := {| jwt_encode := encode; jwt_decode := decode |}.

Definition alice : User :=
  models.mkUser 1 "alice" alice_email (hashpw "s1" "pw12345678") true
                (Some "") 0 (Some "alice.refresh.0").

Definition signup_alice : schemas.UserModel :=
  schemas.mkUserModel "alice" alice_email "pw12345678".

(** A store holding alice, with an empty cache. *)
Definition w_alice : World := mkWorld [alice] 2 ∅ [].

End fixtures.

(** ** Further vocabulary *)

(** The world with another cache, and with another table. *)
Definition with_cache (c : gmap string pickled) (w : World) : World :=
  mkWorld (users w) (next_id w) c (background_tasks w).

Definition with_users (l : list User) (w : World) : World :=
  mkWorld l (next_id w) (redis_db w) (background_tasks w).


(** The row [create_user] inserts. *)
Definition new_row (body : schemas.UserModel) (now : Z) (w : World) : User :=
  models.mkUser (next_id w) (schemas.username body) (schemas.email body)
                (schemas.password body) false (Some "") now None.

(** The lifetime a claim set gives its token: expiry minus issuance. *)
Definition lifetime (claims : gmap string jval) : option Z :=
  match claims !! "iat", claims !! "exp" with
  | Some (JNum iat), Some (JNum exp) => Some (exp - iat)
  | _, _ => None
  end.

(** Relations between the world before and after a computation. *)
Definition respects {A} (R : relation World) (m : M A) : Prop :=
  ∀ w, R w (world_after m w).

(** Every record keeps its [confirmed] flag. *)
Definition same_flags : relation World := λ w w',
  ∀ e u, find_user e w = Some u →
    ∃ u', find_user e w' = Some u' ∧ models.confirmed u' = models.confirmed u.

(** Every record stays, and stays confirmed if it was. *)
Definition flags_grow : relation World := λ w w',
  ∀ e u, find_user e w = Some u →
    ∃ u', find_user e w' = Some u'
          ∧ (models.confirmed u = true → models.confirmed u' = true).

Definition keeps_coherent : relation World := λ w w',
  coherent w → coherent w'.

(** What every operation but the confirmation of an email guarantees, and
    what the confirmation guarantees. *)
Definition quiet : relation World := λ w w',
  keeps_coherent w w' ∧ same_flags w w'.

Definition sound : relation World := λ w w',
  keeps_coherent w w' ∧ flags_grow w w'.

Section Tokens.
Context `{Jose}.

(** The pair of tokens issued for [E] at [now]. *)
Definition fresh_pair (E : string) (now : Z) : schemas.TokenModel :=
  schemas.mkTokenModel
    (auth_service.create_access_token (routes_auth.sub_claim E) None now)
    (auth_service.create_refresh_token (routes_auth.sub_claim E) None now)
    "bearer".

(** A bearer string that decodes with scope [refresh_token] to subject
    [E] at [now]. *)
Definition refresh_token_for (E token : string) (now : Z) : Prop :=
  ∃ payload,
    jwt_decode now token = Some payload
    ∧ payload !! "scope" = Some (JStr "refresh_token")
    ∧ payload !! "sub" = Some (JStr E).

(** A token whose payload carries the subject [E] at [now]; the
    confirmation route asks nothing else of it. *)
Definition token_of (E token : string) (now : Z) : Prop :=
  ∃ payload,
    jwt_decode now token = Some payload ∧ payload !! "sub" = Some (JStr E).
End Tokens.

(** A computation that reads the store: it may add cache entries and leaves
    the table, the sequence and the queued tasks as they are. *)
Definition only_caches : relation World := λ w w',
  users w' = users w
  ∧ next_id w' = next_id w
  ∧ background_tasks w' = background_tasks w
  ∧ redis_db w ⊆ redis_db w'.


(** ** Contacts: [src/database/models.py], [src/schemas.py] *)

(** A calendar date ([datetime.date]). *)
Record date := mkDate { year : Z; month : Z; day : Z }.

Global Instance date_eq_dec : EqDecision date.
Proof. solve_decision. Defined.

Module contact_models.

Record Contact := mkContact {
  id : Z;
  first_name : string;
  last_name : string;
  email : option string;
  phone : option string;
  date_of_birth : date;
  created_at : Z;
  user_id : option Z
}.

Global Instance Contact_eq_dec : EqDecision Contact.
Proof. solve_decision. Defined.

End contact_models.

Module contact_schemas.

Record ContactModel := mkContactModel {
  first_name : string;
  last_name : string;
  date_of_birth : date;
  email : option string;
  phone : option string
}.

Record ContactUpdate := mkContactUpdate {
  cu_date_of_birth : date
}.

End contact_schemas.

Abbreviation Contact := contact_models.Contact.

(** The [contacts] table in insertion order and the value its primary-key
    sequence hands out next. *)
Record Contacts := mkContacts {
  contacts : list Contact;
  next_contact_id : Z
}.

(** What the database decides in the search branches of [get_contacts]:
    [like_prefix column prefix] is [column.startswith(prefix)], that is
    [column LIKE prefix || '%'], and [birthday_filter today birthdays
    date_of_birth] the disjunction of the two date windows that the
    birthday branch builds with [func.date] and [func.concat]. *)
Class SqlDialect := {
  like_prefix : string → string → bool;
  birthday_filter : date → Z → date → bool
}.

Definition HTTP_404_NOT_FOUND : Z := 404.

(** ** [src/repository/contacts.py] *)

Module repository_contacts.

(** [Contact.user_id == user.id]; a [NULL] owner matches nobody. *)
Definition owned_by (user : User) (c : Contact) : bool :=
  bool_decide (contact_models.user_id c = Some (models.id user)).

(** [and_(Contact.id == contact_id, Contact.user_id == user.id)] *)
Definition is_contact (contact_id : Z) (user : User) (c : Contact) : Prop :=
  contact_models.id c = contact_id
  ∧ contact_models.user_id c = Some (models.id user).

Global Instance is_contact_dec contact_id user c :
  Decision (is_contact contact_id user c).
Proof. unfold is_contact. apply _. Defined.

Section Search.
Context `{SqlDialect}.

(** [skip] and [limit] are the non-negative values of the query
    parameters; rows come in the order of the table. *)
Definition get_contacts (skip limit : nat)
    (first_name last_name email : string) (birthdays : Z) (today : date)
    (user : User) (db : Contacts) : list Contact :=
  if (String.length (first_name ++ last_name ++ email) =? 0)%nat
     && (birthdays =? 0)%Z
  then take limit (drop skip (List.filter (owned_by user) (contacts db)))
  else if (0 <? String.length first_name)%nat then
    List.filter
      (λ c, like_prefix (contact_models.first_name c) first_name
            && owned_by user c)
      (contacts db)
  else if (0 <? String.length last_name)%nat then
    List.filter
      (λ c, like_prefix (contact_models.last_name c) last_name
            && owned_by user c)
      (contacts db)
  else if (0 <? String.length email)%nat then
    List.filter
      (λ c, match contact_models.email c with
            | Some e => like_prefix e email
            | None => false
            end && owned_by user c)
      (contacts db)
  else
    List.filter
      (λ c, birthday_filter today birthdays (contact_models.date_of_birth c)
            && owned_by user c)
      (contacts db).

End Search.

Definition find_contact (contact_id : Z) (user : User) (db : Contacts)
    : option (nat * Contact) :=
  list_find (is_contact contact_id user) (contacts db).

Definition get_contact (contact_id : Z) (user : User) (db : Contacts)
    : option Contact :=
  snd <$> find_contact contact_id user db.

(** [db.add(contact); db.commit(); db.refresh(contact)] with the
    server-side defaults [id] and [created_at]. *)
Definition create_contact (body : contact_schemas.ContactModel) (user : User)
    (now : Z) (db : Contacts) : Contact * Contacts :=
  let contact :=
    contact_models.mkContact (next_contact_id db)
      (contact_schemas.first_name body) (contact_schemas.last_name body)
      (contact_schemas.email body) (contact_schemas.phone body)
      (contact_schemas.date_of_birth body) now (Some (models.id user)) in
  (contact, mkContacts (contacts db ++ [contact])%list (next_contact_id db + 1)).

Definition remove_contact (contact_id : Z) (user : User) (db : Contacts)
    : option Contact * Contacts :=
  match find_contact contact_id user db with
  | Some (i, contact) =>
      (Some contact, mkContacts (delete i (contacts db)) (next_contact_id db))
  | None => (None, db)
  end.

Definition update_contact (contact_id : Z) (body : contact_schemas.ContactModel)
    (user : User) (db : Contacts) : option Contact * Contacts :=
  match find_contact contact_id user db with
  | Some (i, contact) =>
      let contact :=
        contact_models.mkContact (contact_models.id contact)
          (contact_schemas.first_name body) (contact_schemas.last_name body)
          (contact_schemas.email body) (contact_schemas.phone body)
          (contact_schemas.date_of_birth body)
          (contact_models.created_at contact)
          (contact_models.user_id contact) in
      (Some contact,
       mkContacts (<[i := contact]> (contacts db)) (next_contact_id db))
  | None => (None, db)
  end.

Definition update_date_of_birth_contact (contact_id : Z)
    (body : contact_schemas.ContactUpdate) (user : User) (db : Contacts)
    : option Contact * Contacts :=
  match find_contact contact_id user db with
  | Some (i, contact) =>
      let contact :=
        contact_models.mkContact (contact_models.id contact)
          (contact_models.first_name contact)
          (contact_models.last_name contact) (contact_models.email contact)
          (contact_models.phone contact)
          (contact_schemas.cu_date_of_birth body)
          (contact_models.created_at contact)
          (contact_models.user_id contact) in
      (Some contact,
       mkContacts (<[i := contact]> (contacts db)) (next_contact_id db))
  | None => (None, db)
  end.

End repository_contacts.

(** ** [src/routes/contacts.py] *)

Module routes_contacts.
Section Routes.
Context `{Jose, SqlDialect}.

Definition contact_not_found : exn :=
  HTTPException HTTP_404_NOT_FOUND "Contact not found".

(** A handler behind [Depends(auth_service.get_current_user)]: the guard
    runs first on the user store and the handler body then works on the
    contacts table for the user it returned.  (The [RateLimiter] dependency
    of the routes is taken to have let the request through.) *)
Definition with_current_user {A} (token : string) (now : Z)
    (body : User → Contacts → outcome A * Contacts)
    : World * Contacts → outcome A * (World * Contacts) :=
  λ s,
    match auth_service.get_current_user token now s.1 with
    | (Return current_user, w) =>
        let r := body current_user s.2 in (r.1, (w, r.2))
    | (Raise e, w) => (Raise e, (w, s.2))
    end.

Definition or_not_found (r : option Contact * Contacts)
    : outcome Contact * Contacts :=
  match r.1 with
  | Some contact => (Return contact, r.2)
  | None => (Raise contact_not_found, r.2)
  end.

(** [GET /contacts/] *)
Definition read_contacts (skip limit : nat)
    (first_name last_name email : string) (birthdays : Z) (today : date)
    (token : string) (now : Z) :=
  with_current_user token now (λ current_user db,
    (Return (repository_contacts.get_contacts skip limit first_name last_name
               email birthdays today current_user db), db)).

(** [GET /contacts/{contact_id}] *)
Definition read_contact (contact_id : Z) (token : string) (now : Z) :=
  with_current_user token now (λ current_user db,
    or_not_found (repository_contacts.get_contact contact_id current_user db,
                  db)).

(** [POST /contacts/] *)
Definition create_contact (body : contact_schemas.ContactModel)
    (token : string) (now : Z) :=
  with_current_user token now (λ current_user db,
    let r := repository_contacts.create_contact body current_user now db in
    (Return r.1, r.2)).

(** [PUT /contacts/{contact_id}] *)
Definition update_contact (body : contact_schemas.ContactModel)
    (contact_id : Z) (token : string) (now : Z) :=
  with_current_user token now (λ current_user db,
    or_not_found
      (repository_contacts.update_contact contact_id body current_user db)).

(** [PATCH /contacts/{contact_id}] *)
Definition update_date_of_birth_contact (body : contact_schemas.ContactUpdate)
    (contact_id : Z) (token : string) (now : Z) :=
  with_current_user token now (λ current_user db,
    or_not_found
      (repository_contacts.update_date_of_birth_contact contact_id body
         current_user db)).

(** [DELETE /contacts/{contact_id}] *)
Definition remove_contact (contact_id : Z) (token : string) (now : Z) :=
  with_current_user token now (λ current_user db,
    or_not_found (repository_contacts.remove_contact contact_id current_user db)).

End Routes.
End routes_contacts.

(** ** Vocabulary for the contacts *)

(** Ids are pairwise different and below the sequence. *)
Definition contacts_wf (db : Contacts) : Prop :=
  NoDup (contact_models.id <$> contacts db)
  ∧ Forall (λ c, contact_models.id c < next_contact_id db) (contacts db).

(** The contacts that do not belong to [user]. *)
Definition contacts_of_others (user : User) (db : Contacts) : list Contact :=
  List.filter (λ c, negb (repository_contacts.owned_by user c)) (contacts db).

Definition empty_contacts : Contacts := mkContacts [] 1.

(** ** A concrete contacts table for the examples *)

Module contact_fixtures.

(** A dialect for patterns without wildcards and a stand-in for the
    birthday window (same month as today). *)
Definition dialect : SqlDialect :=
  {| like_prefix column prefix := String.prefix prefix column;
     birthday_filter today birthdays date_of_birth :=
       bool_decide (month date_of_birth = month today) |}.

Definition bob : User :=
  models.mkUser 2 "bobby" "bob@example.com" "$2b$12$s2$hunter2222" true
                (Some "") 0 None.

Definition ann : Contact :=
  contact_models.mkContact 1 "Ann" "Lee" (Some "ann@example.com") None
    (mkDate 1990 4 19) 10 (Some 1).

Definition bo : Contact :=
  contact_models.mkContact 2 "Bo" "Ray" None (Some "097-111-11-11")
    (mkDate 1985 12 31) 20 (Some 2).

Definition al : Contact :=
  contact_models.mkContact 3 "Al" "Lee" (Some "al@example.com") None
    (mkDate 2000 2 29) 30 (Some 1).

Definition table : Contacts := mkContacts [ann; bo; al] 4.

Definition new_contact : contact_schemas.ContactModel :=
  contact_schemas.mkContactModel "Cy" "Fox" (mkDate 1999 1 2) None None.

End contact_fixtures.

(** * Properties *)

(** ** The store and the cache *)

Ltac unfold_m :=
  unfold mbind, M_bind, bind, mret, M_ret, ret, raise, lift, redis_get,
    redis_set, redis_delete, query_first, commit_row, add_task in *.

Lemma drop_cached_eq k w :
  repository_users.drop_cached k w =
    (Return tt, with_cache (delete k (redis_db w)) w).
Proof.
  unfold repository_users.drop_cached, with_cache. unfold_m. simpl.
  destruct (redis_db w !! k) eqn:Hk; [done|].
  rewrite delete_id by done. by destruct w.
Qed.

(** The read-through lookup, case by case. *)
Lemma get_user_by_email_eq e w :
  repository_users.get_user_by_email e w =
    match redis_db w !! e with
    | Some d => (Return (loads d), w)
    | None =>
        (Return (find_user e w),
         with_cache (<[e := dumps (find_user e w)]> (redis_db w)) w)
    end.
Proof.
  unfold repository_users.get_user_by_email. unfold_m. simpl.
  by destruct (redis_db w !! e).
Qed.

(** Replacing the first row found for [e] by a row with the same email only
    changes what the store answers for [e]. *)
Lemma list_find_update (l : list User) i u u' e e' :
  list_find (has_email e) l = Some (i, u) →
  models.email u' = e →
  snd <$> list_find (has_email e') (<[i := u']> l) =
    if decide (e' = e) then Some u' else snd <$> list_find (has_email e') l.
Proof.
  revert i. induction l as [|x l IH]; intros i Hf He; [done|].
  simpl in Hf. destruct (decide (has_email e x)) as [Hx|Hx].
  - simplify_eq/=. unfold has_email in *.
    repeat case_decide; simplify_eq/=; try done; congruence.
  - destruct (list_find (has_email e) l) as [[j y]|] eqn:Hl; simplify_eq/=.
    specialize (IH j eq_refl eq_refl). unfold has_email in *.
    destruct (decide (models.email x = e')) as [Hx'|Hx']; simplify_eq/=.
    + by rewrite decide_False by congruence.
    + rewrite <- !option_fmap_compose.
      assert (Hc : ∀ o : option (nat * User),
                 (snd ∘ prod_map S id) <$> o = snd <$> o)
        by (by intros [[??]|]).
      by rewrite !Hc.
Qed.

Lemma list_find_has_email (l : list User) e i u :
  list_find (has_email e) l = Some (i, u) → models.email u = e.
Proof. intros (_ & ? & _)%list_find_Some. done. Qed.

Lemma find_user_Some e w u :
  find_user e w = Some u →
  ∃ i, list_find (has_email e) (users w) = Some (i, u) ∧ models.email u = e.
Proof.
  unfold find_user. intros ([i u'] & Hf & ?)%fmap_Some. simplify_eq/=.
  eauto using list_find_has_email.
Qed.

Lemma find_user_None e w :
  find_user e w = None → list_find (has_email e) (users w) = None.
Proof. unfold find_user. by intros ?%fmap_None. Qed.

(** The four updates: a committed assignment on the row found, then the
    deletion of its cache key. *)
Lemma update_token_eq cache_user token w :
  repository_users.update_token cache_user token w =
    match list_find (has_email (models.email cache_user)) (users w) with
    | None => (Raise AttributeError, w)
    | Some (i, u) =>
        (Return tt,
         with_cache (delete (models.email u) (redis_db w))
           (with_users (<[i := models.set_refresh_token token u]> (users w)) w))
    end.
Proof.
  unfold repository_users.update_token,
    repository_users.get_user_by_email_from_db.
  unfold mbind, M_bind, bind, query_first, raise, commit_row. simpl.
  destruct (list_find _ _) as [[i u]|]; [|done].
  by rewrite drop_cached_eq.
Qed.

Lemma confirmed_email_eq email w :
  repository_users.confirmed_email email w =
    match list_find (has_email email) (users w) with
    | None => (Raise AttributeError, w)
    | Some (i, u) =>
        (Return tt,
         with_cache (delete email (redis_db w))
           (with_users (<[i := models.set_confirmed true u]> (users w)) w))
    end.
Proof.
  unfold repository_users.confirmed_email,
    repository_users.get_user_by_email_from_db.
  unfold mbind, M_bind, bind, query_first, raise, commit_row. simpl.
  destruct (list_find _ _) as [[i u]|]; [|done].
  by rewrite drop_cached_eq.
Qed.

Lemma update_password_eq cache_user password w :
  repository_users.update_password cache_user password w =
    match list_find (has_email (models.email cache_user)) (users w) with
    | None => (Raise AttributeError, w)
    | Some (i, u) =>
        (Return tt,
         with_cache (delete (models.email u) (redis_db w))
           (with_users (<[i := models.set_password password u]> (users w)) w))
    end.
Proof.
  unfold repository_users.update_password,
    repository_users.get_user_by_email_from_db.
  unfold mbind, M_bind, bind, query_first, raise, commit_row. simpl.
  destruct (list_find _ _) as [[i u]|]; [|done].
  by rewrite drop_cached_eq.
Qed.

Lemma update_avatar_eq email url w :
  repository_users.update_avatar email url w =
    match list_find (has_email email) (users w) with
    | None => (Raise AttributeError, w)
    | Some (i, u) =>
        (Return (models.set_avatar (Some url) u),
         with_cache (delete email (redis_db w))
           (with_users (<[i := models.set_avatar (Some url) u]> (users w)) w))
    end.
Proof.
  unfold repository_users.update_avatar,
    repository_users.get_user_by_email_from_db.
  unfold mbind, M_bind, bind, query_first, raise, commit_row. simpl.
  destruct (list_find _ _) as [[i u]|]; [|done].
  by rewrite drop_cached_eq.
Qed.

(** What the store and the cache answer after such an update of the row of
    [e] by a row [u'] with the same email. *)
Lemma find_user_updated w i u u' e e' :
  list_find (has_email e) (users w) = Some (i, u) →
  models.email u' = e →
  find_user e'
    (with_cache (delete e (redis_db w)) (with_users (<[i := u']> (users w)) w)) =
    if decide (e' = e) then Some u' else find_user e' w.
Proof. intros. unfold find_user. simpl. by eapply list_find_update. Qed.

Lemma coherent_updated w i u u' e :
  coherent w →
  list_find (has_email e) (users w) = Some (i, u) →
  models.email u' = e →
  coherent
    (with_cache (delete e (redis_db w)) (with_users (<[i := u']> (users w)) w)).
Proof.
  intros Hc Hf He e' d Hd. erewrite find_user_updated by done.
  simpl in Hd. apply lookup_delete_Some in Hd as [Hne Hd].
  rewrite decide_False by done. by apply Hc.
Qed.

Lemma lookup_after_miss e w :
  redis_db w !! e = None →
  repository_users.get_user_by_email e w =
    (Return (find_user e w),
     with_cache (<[e := dumps (find_user e w)]> (redis_db w)) w).
Proof. intros Hm. by rewrite get_user_by_email_eq, Hm. Qed.

(** In a coherent world the lookup answers what the store holds, and leaves
    a coherent world with the same table. *)
Lemma lookup_coherent e w :
  coherent w →
  ∃ w', repository_users.get_user_by_email e w = (Return (find_user e w), w')
        ∧ users w' = users w ∧ next_id w' = next_id w
        ∧ background_tasks w' = background_tasks w
        ∧ coherent w'
        ∧ (∀ e', find_user e' w' = find_user e' w).
Proof.
  intros Hc. rewrite get_user_by_email_eq.
  destruct (redis_db w !! e) as [d|] eqn:Hd.
  - exists w. rewrite (Hc _ _ Hd). done.
  - eexists. split; [done|]. split_and!; try done.
    intros e' d'. simpl. intros [[-> <-]|[Hne Hd']]%lookup_insert_Some; [done|].
    by apply Hc.
Qed.

(** ** Cache invalidation *)




(** ** User creation *)

Lemma create_user_eq body now w :
  repository_users.create_user body now w =
    match list_find (has_email (schemas.email body)) (users w) with
    | Some _ => (Raise IntegrityError, w)
    | None =>
        (Return (new_row body now w),
         mkWorld (users w ++ [new_row body now w]) (next_id w + 1)
                 (delete (schemas.email body) (redis_db w))
                 (background_tasks w))
    end.
Proof.
  unfold repository_users.create_user, insert_user.
  unfold mbind, M_bind, bind, mret, M_ret, ret. simpl.
  destruct (list_find _ _); [done|].
  by rewrite drop_cached_eq.
Qed.

Lemma list_find_snoc (l : list User) u e :
  snd <$> list_find (has_email e) (l ++ [u]) =
    match snd <$> list_find (has_email e) l with
    | Some x => Some x
    | None => if decide (models.email u = e) then Some u else None
    end.
Proof.
  induction l as [|x l IH]; simpl.
  - unfold has_email. by case_decide.
  - destruct (decide (has_email e x)); simpl; [done|].
    rewrite <- !option_fmap_compose.
    assert (Hc : ∀ o : option (nat * User),
               (snd ∘ prod_map S id) <$> o = snd <$> o)
      by (by intros [[??]|]).
    by rewrite !Hc.
Qed.

Lemma find_user_created body now w e' :
  find_user (schemas.email body) w = None →
  find_user e'
    (mkWorld (users w ++ [new_row body now w]) (next_id w + 1)
             (delete (schemas.email body) (redis_db w)) (background_tasks w)) =
    if decide (e' = schemas.email body) then Some (new_row body now w)
    else find_user e' w.
Proof.
  intros Hn. unfold find_user in *. simpl. rewrite list_find_snoc.
  destruct (decide (e' = schemas.email body)) as [->|Hne].
  - rewrite Hn. by rewrite decide_True.
  - destruct (snd <$> list_find (has_email e') (users w)); [done|].
    rewrite decide_False; [done|]. simpl. congruence.
Qed.

(** ** Negative caching *)

(** C10: on a cache miss the read-through lookup stores the store's answer
    under the email even when there is no such user (a pickled absence); a
    later lookup is answered from that entry whatever the store holds by
    then; and [create_user] returns with the entry of the new user's email
    deleted. *)
Theorem negative_results_cached (w : World) (e : string) :
  redis_db w !! e = None →
  let w' := world_after (repository_users.get_user_by_email e) w in
  result (repository_users.get_user_by_email e) w = Return (find_user e w)
  ∧ redis_db w' !! e = Some (dumps (find_user e w))
  ∧ (find_user e w = None → redis_db w' !! e = Some (dumps None))
  ∧ (∀ w2, redis_db w2 !! e = redis_db w' !! e →
       repository_users.get_user_by_email e w2 = (Return (find_user e w), w2))
  ∧ (∀ body now u w1,
       repository_users.create_user body now w' = (Return u, w1) →
       redis_db w1 !! schemas.email body = None)
  ∧ (find_user e w = None → ∀ body now, schemas.email body = e →
       ∃ u w1,
         repository_users.create_user body now w' = (Return u, w1)
         ∧ models.confirmed u = false
         ∧ redis_db w1 !! e = None
         ∧ result (repository_users.get_user_by_email e) w1 = Return (Some u)).
Proof.
  intros Hm w'. subst w'. unfold result, world_after.
  rewrite (lookup_after_miss _ _ Hm). simpl.
  split_and!.
  - done.
  - apply lookup_insert_eq.
  - intros ->. apply lookup_insert_eq.
  - intros w2 Hw2. rewrite lookup_insert_eq in Hw2.
    by rewrite get_user_by_email_eq, Hw2.
  - intros body now u w1. rewrite create_user_eq. simpl.
    destruct (list_find _ _); [done|]. intros [= <- <-]. simpl.
    apply lookup_delete_eq.
  - intros Hn body now <-.
    set (w' := with_cache _ w).
    assert (Hn' : find_user (schemas.email body) w' = None) by done.
    do 2 eexists. rewrite create_user_eq.
    rewrite (find_user_None _ _ Hn'). split; [done|].
    split; [done|]. split; [apply lookup_delete_eq|].
    rewrite lookup_after_miss by apply lookup_delete_eq. simpl.
    rewrite (find_user_created body now w' _ Hn'). by rewrite decide_True.
Qed.

Lemma negative_results_cached_witness :
  redis_db init !! "bob@example.com" = None
  ∧ redis_db (world_after
                (repository_users.get_user_by_email "bob@example.com") init)
      !! "bob@example.com" = Some (dumps None).
Proof.
  split; [reflexivity|].
  exact (proj1 (proj2 (proj2
           (negative_results_cached init "bob@example.com" eq_refl))) eq_refl).
Defined.

(** ** Password-reset request *)

(** C8: the password-reset request answers the same success message in any
    two states, in particular in one that holds an account for the email
    and in one that does not. *)
Theorem password_reset_no_leak (email base_url : string) (w1 w2 : World) :
  result (routes_auth.password_reset email base_url) w1
    = Return "Check your email for instruction."
  ∧ result (routes_auth.password_reset email base_url) w2
    = result (routes_auth.password_reset email base_url) w1.
Proof.
  assert (Hres : ∀ w, result (routes_auth.password_reset email base_url) w
                      = Return "Check your email for instruction.").
  { intros w. unfold result, routes_auth.password_reset.
    unfold mbind, M_bind, bind. rewrite get_user_by_email_eq.
    destruct (redis_db w !! email) as [[[u|]]|]; simpl; try done;
      destruct (find_user email w); done. }
  by rewrite !Hres.
Qed.

(** ** Token lifetimes *)

Lemma lifetime_access data d now :
  lifetime (auth_service.access_claims data d now)
    = Some (auth_service.access_expire d now - now).
Proof.
  unfold lifetime, auth_service.access_claims.
  by rewrite !lookup_insert_ne, lookup_insert_eq, lookup_insert_ne,
    lookup_insert_eq by done.
Qed.

Lemma lifetime_refresh data d now :
  lifetime (auth_service.refresh_claims data d now)
    = Some (auth_service.refresh_expire d now - now).
Proof.
  unfold lifetime, auth_service.refresh_claims.
  by rewrite !lookup_insert_ne, lookup_insert_eq, lookup_insert_ne,
    lookup_insert_eq by done.
Qed.





(** A zero [expires_delta_sec] is falsy and leaves the default in place. *)
Lemma zero_delta_is_default data now :
  lifetime (auth_service.access_claims data (Some 0) now) = Some (15 * 60)
  ∧ lifetime (auth_service.refresh_claims data (Some 0) now) = Some (7 * 86400).
Proof.
  rewrite lifetime_access, lifetime_refresh.
  unfold auth_service.access_expire, auth_service.refresh_expire, truthy,
    minutes, days. simpl. split; f_equal; lia.
Qed.

(** ** What the operations preserve *)

Global Instance same_flags_preorder : PreOrder same_flags.
Proof.
  split.
  - intros w e u Hu. eauto.
  - intros w1 w2 w3 H12 H23 e u Hu.
    destruct (H12 _ _ Hu) as (u2 & Hu2 & Hc2).
    destruct (H23 _ _ Hu2) as (u3 & Hu3 & Hc3).
    exists u3. split; [done|congruence].
Qed.

Global Instance flags_grow_preorder : PreOrder flags_grow.
Proof.
  split.
  - intros w e u Hu. eauto.
  - intros w1 w2 w3 H12 H23 e u Hu.
    destruct (H12 _ _ Hu) as (u2 & Hu2 & Hc2).
    destruct (H23 _ _ Hu2) as (u3 & Hu3 & Hc3).
    exists u3. split; [done|auto].
Qed.

Global Instance keeps_coherent_preorder : PreOrder keeps_coherent.
Proof. split; unfold keeps_coherent; [by intros w|intros w1 w2 w3; auto]. Qed.

Global Instance quiet_preorder : PreOrder quiet.
Proof.
  split; [by split|].
  intros w1 w2 w3 [??] [??]. split; by etrans.
Qed.

Global Instance sound_preorder : PreOrder sound.
Proof.
  split; [by split|].
  intros w1 w2 w3 [??] [??]. split; by etrans.
Qed.

Lemma quiet_sound w w' : quiet w w' → sound w w'.
Proof.
  intros [Hc Hf]. split; [done|]. intros e u Hu.
  destruct (Hf _ _ Hu) as (u' & Hu' & Hc'). exists u'. split; [done|congruence].
Qed.

Section Respects.
Context (R : relation World) `{!PreOrder R}.

Lemma respects_ret {A} (a : A) : respects R (mret a).
Proof. by intros w. Qed.

Lemma respects_raise {A} e : respects R (raise (A := A) e).
Proof. by intros w. Qed.

Lemma respects_lift {A} (r : outcome A) : respects R (lift r).
Proof. by intros w. Qed.

Lemma respects_bind {A B} (m : M A) (k : A → M B) :
  respects R m → (∀ a, respects R (k a)) → respects R (m ≫= k).
Proof.
  intros Hm Hk w. unfold world_after, mbind, M_bind, bind.
  specialize (Hm w). unfold world_after in Hm.
  destruct (m w) as [[a|e] w1]; simpl in *; [|done].
  etrans; [done|]. apply Hk.
Qed.
End Respects.

Lemma quiet_same_table w w' :
  users w' = users w → redis_db w' = redis_db w → quiet w w'.
Proof.
  intros Hu Hc. split.
  - intros Hcoh e d. unfold find_user. rewrite Hu, Hc. apply Hcoh.
  - intros e u. unfold find_user. rewrite Hu. eauto.
Qed.

Lemma quiet_add_task t : respects quiet (add_task t).
Proof. intros w. by apply quiet_same_table. Qed.

Lemma quiet_get_user_by_email e :
  respects quiet (repository_users.get_user_by_email e).
Proof.
  intros w. unfold world_after. rewrite get_user_by_email_eq.
  destruct (redis_db w !! e) as [d|] eqn:Hd; simpl; [done|].
  split.
  - intros Hc e' d'. simpl.
    intros [[-> <-]|[Hne Hd']]%lookup_insert_Some; [done|]. by apply Hc.
  - intros e' u Hu. eauto.
Qed.

(** An update of the row of [e] that keeps its email and its flag. *)
Lemma quiet_updated w i u u' e :
  list_find (has_email e) (users w) = Some (i, u) →
  models.email u' = e →
  models.confirmed u' = models.confirmed u →
  quiet w (with_cache (delete e (redis_db w))
             (with_users (<[i := u']> (users w)) w)).
Proof.
  intros Hf He Hc. split.
  - intros Hcoh. by eapply coherent_updated.
  - intros e' x Hx. erewrite find_user_updated by done.
    case_decide; [|eauto]. subst e'. exists u'. split; [done|].
    unfold find_user in Hx. rewrite Hf in Hx. by simplify_eq/=.
Qed.

Lemma sound_updated w i u u' e :
  list_find (has_email e) (users w) = Some (i, u) →
  models.email u' = e →
  models.confirmed u' = true →
  sound w (with_cache (delete e (redis_db w))
             (with_users (<[i := u']> (users w)) w)).
Proof.
  intros Hf He Hc. split.
  - intros Hcoh. by eapply coherent_updated.
  - intros e' x Hx. erewrite find_user_updated by done.
    case_decide; [|eauto]. subst e'. by exists u'.
Qed.

Lemma quiet_update_token cache_user token :
  respects quiet (repository_users.update_token cache_user token).
Proof.
  intros w. unfold world_after. rewrite update_token_eq.
  destruct (list_find _ _) as [[i u]|] eqn:Hf; simpl; [|done].
  pose proof (list_find_has_email _ _ _ _ Hf) as He. rewrite He.
  by eapply quiet_updated.
Qed.

Lemma quiet_update_password cache_user password :
  respects quiet (repository_users.update_password cache_user password).
Proof.
  intros w. unfold world_after. rewrite update_password_eq.
  destruct (list_find _ _) as [[i u]|] eqn:Hf; simpl; [|done].
  pose proof (list_find_has_email _ _ _ _ Hf) as He. rewrite He.
  by eapply quiet_updated.
Qed.

Lemma quiet_update_avatar email url :
  respects quiet (repository_users.update_avatar email url).
Proof.
  intros w. unfold world_after. rewrite update_avatar_eq.
  destruct (list_find _ _) as [[i u]|] eqn:Hf; simpl; [|done].
  pose proof (list_find_has_email _ _ _ _ Hf) as He.
  by eapply quiet_updated.
Qed.

Lemma sound_confirmed_email email :
  respects sound (repository_users.confirmed_email email).
Proof.
  intros w. unfold world_after. rewrite confirmed_email_eq.
  destruct (list_find _ _) as [[i u]|] eqn:Hf; simpl; [|done].
  pose proof (list_find_has_email _ _ _ _ Hf) as He.
  by eapply sound_updated.
Qed.

Lemma quiet_create_user body now :
  respects quiet (repository_users.create_user body now).
Proof.
  intros w. unfold world_after. rewrite create_user_eq.
  destruct (list_find _ _) as [[i u]|] eqn:Hf; simpl; [done|].
  assert (Hn : find_user (schemas.email body) w = None)
    by (unfold find_user; by rewrite Hf).
  split.
  - intros Hcoh e' d. rewrite find_user_created by done. simpl.
    intros [Hne Hd]%lookup_delete_Some. rewrite decide_False by done.
    by apply Hcoh.
  - intros e' x Hx. rewrite find_user_created by done.
    case_decide; [congruence|eauto].
Qed.

Ltac respects_step R :=
  lazymatch goal with
  | |- respects _ (mbind _ _) => apply (respects_bind R); [|intros ?]
  | |- respects _ (mret _) => apply (respects_ret R)
  | |- respects _ (raise _) => apply (respects_raise R)
  | |- respects _ (lift _) => apply (respects_lift R)
  | |- respects _ (match ?x with _ => _ end) => destruct x
  | |- respects _ (let _ := _ in _) => cbv zeta
  end.

Ltac respects_quiet :=
  repeat lazymatch goal with
    | |- respects _ (repository_users.get_user_by_email _) =>
        apply quiet_get_user_by_email
    | |- respects _ (add_task _) => apply quiet_add_task
    | |- respects _ (repository_users.update_token _ _) =>
        apply quiet_update_token
    | |- respects _ (repository_users.update_password _ _) =>
        apply quiet_update_password
    | |- respects _ (repository_users.update_avatar _ _) =>
        apply quiet_update_avatar
    | |- respects _ (repository_users.create_user _ _) =>
        apply quiet_create_user
    | |- _ => respects_step quiet
    end.

Lemma sound_of_quiet {A} (m : M A) : respects quiet m → respects sound m.
Proof. intros Hm w. apply quiet_sound, Hm. Qed.

Section RoutesPreserve.
Context `{Jose, CryptContext}.

Lemma quiet_signup body base_url salt now :
  respects quiet (routes_auth.signup body base_url salt now).
Proof. unfold routes_auth.signup. respects_quiet. Qed.

Lemma quiet_login username password now :
  respects quiet (routes_auth.login username password now).
Proof. unfold routes_auth.login. respects_quiet. Qed.

Lemma quiet_refresh_token token now :
  respects quiet (routes_auth.refresh_token token now).
Proof. unfold routes_auth.refresh_token. respects_quiet. Qed.

Lemma quiet_request_email email base_url :
  respects quiet (routes_auth.request_email email base_url).
Proof. unfold routes_auth.request_email. respects_quiet. Qed.

Lemma quiet_password_reset email base_url :
  respects quiet (routes_auth.password_reset email base_url).
Proof. unfold routes_auth.password_reset. respects_quiet. Qed.

Lemma quiet_confirm_password_reset token now :
  respects quiet (routes_auth.confirm_password_reset token now).
Proof. unfold routes_auth.confirm_password_reset. respects_quiet. Qed.

Lemma quiet_new_password body salt :
  respects quiet (routes_auth.new_password body salt).
Proof. unfold routes_auth.new_password. respects_quiet. Qed.

Lemma quiet_get_current_user token now :
  respects quiet (auth_service.get_current_user token now).
Proof. unfold auth_service.get_current_user. respects_quiet. Qed.

Lemma sound_confirmed_email_route token now :
  respects sound (routes_auth.confirmed_email token now).
Proof.
  unfold routes_auth.confirmed_email.
  repeat lazymatch goal with
    | |- respects _ (repository_users.confirmed_email _) =>
        apply sound_confirmed_email
    | |- respects _ (repository_users.get_user_by_email _) =>
        apply sound_of_quiet, quiet_get_user_by_email
    | |- _ => respects_step sound
    end.
Qed.

(** Every request but the confirmation of an email leaves every flag as
    it is. *)
Lemma handle_quiet r w :
  (∀ token now, r ≠ ConfirmedEmail token now) → quiet w (handle r w).
Proof.
  intros Hr. destruct r; simpl;
    first [ apply quiet_signup | apply quiet_login
          | apply quiet_refresh_token | apply quiet_request_email
          | apply quiet_password_reset | apply quiet_confirm_password_reset
          | apply quiet_new_password | apply quiet_get_current_user
          | apply quiet_update_avatar | by destruct (Hr token now) ].
Qed.

Lemma handle_sound r w : sound w (handle r w).
Proof.
  destruct r; try (apply quiet_sound, handle_quiet; by intros).
  apply sound_confirmed_email_route.
Qed.

Lemma run_sound rs w : sound w (run rs w).
Proof.
  revert w. induction rs as [|r rs IH]; intros w; simpl; [done|].
  etrans; [apply (handle_sound r)|apply IH].
Qed.

Lemma coherent_init : coherent init.
Proof. intros e d Hd. simpl in Hd. by rewrite lookup_empty in Hd. Qed.

(** Every state the system reaches has a coherent cache. *)
Lemma reachable_coherent w : reachable w → coherent w.
Proof.
  induction 1 as [|r w Hw IH]; [apply coherent_init|].
  by apply (handle_sound r w).
Qed.

End RoutesPreserve.

(** ** Refresh-token rotation *)

(** The lookup of a route followed by [update_token] on the record found. *)
Lemma update_token_after_lookup E u t w :
  coherent w →
  find_user E w = Some u →
  ∃ w1 w',
    repository_users.get_user_by_email E w = (Return (Some u), w1)
    ∧ repository_users.update_token u t w1 = (Return tt, w')
    ∧ find_user E w' = Some (models.set_refresh_token t u)
    ∧ redis_db w' !! E = None
    ∧ coherent w'
    ∧ (∀ e', e' ≠ E → find_user e' w' = find_user e' w).
Proof.
  intros Hc Hu.
  destruct (lookup_coherent E w Hc) as (w1 & Hl & Hus & _ & _ & Hc1 & Hf1).
  rewrite Hu in Hl.
  destruct (find_user_Some _ _ _ Hu) as (i & Hi & He).
  exists w1. eexists. split; [done|].
  rewrite update_token_eq, He, Hus, Hi. split; [done|].
  rewrite <- Hus in Hi. rewrite He, <- Hus.
  split_and!.
  - erewrite find_user_updated by done. by rewrite decide_True.
  - apply lookup_delete_eq.
  - by eapply coherent_updated.
  - intros e' Hne. erewrite find_user_updated by done.
    rewrite decide_False by done. apply Hf1.
Qed.

Section Refresh.
Context `{Jose}.

Lemma decode_refresh_token_for E token now :
  refresh_token_for E token now →
  auth_service.decode_refresh_token token now = Return (JStr E).
Proof.
  intros (p & Hd & Hs & Hsub). unfold auth_service.decode_refresh_token.
  by rewrite Hd, Hs, decide_True, Hsub.
Qed.

(** The route on a token of an existing account, in a coherent world. *)
Lemma refresh_token_known E token now u w :
  coherent w →
  refresh_token_for E token now →
  find_user E w = Some u →
  ∃ w',
    routes_auth.refresh_token token now w =
      (if decide (models.refresh_token u ≠ Some token)
       then Raise (HTTPException HTTP_401_UNAUTHORIZED "Invalid refresh token")
       else Return (fresh_pair E now), w')
    ∧ find_user E w' =
        Some (models.set_refresh_token
                (if decide (models.refresh_token u ≠ Some token) then None
                 else Some (schemas.refresh_token (fresh_pair E now))) u)
    ∧ redis_db w' !! E = None
    ∧ coherent w'.
Proof.
  intros Hc Hd Hu.
  set (t := if decide (models.refresh_token u ≠ Some token) then None
            else Some (schemas.refresh_token (fresh_pair E now))).
  destruct (update_token_after_lookup E u t w Hc Hu)
    as (w1 & w' & Hl & Hup & Hf & Hr & Hc' & _).
  exists w'. split; [|done].
  unfold routes_auth.refresh_token, mbind, M_bind, bind, lift.
  rewrite (decode_refresh_token_for _ _ _ Hd). simpl. rewrite Hl.
  subst t. destruct (decide (models.refresh_token u ≠ Some token));
    simpl in *; by rewrite Hup.
Qed.
End Refresh.

Section Rotation.
Context `{Jose}.

End Rotation.

Lemma coherent_w_alice : coherent fixtures.w_alice.
Proof. intros e d Hd. simpl in Hd. by rewrite lookup_empty in Hd. Defined.

Lemma refresh_token_for_alice now :
  @refresh_token_for fixtures.jose fixtures.alice_email "alice.refresh.0" now.
Proof. eexists. split; [reflexivity|]. split; reflexivity. Defined.


(** The refresh token issued for [E] is a function of [E] and of the clock
    reading alone: a refresh at the reading at which the presented token
    was issued hands the same string back. *)
Lemma refresh_reissues_at_same_reading `{Jose} (E : string) (now : Z) :
  schemas.refresh_token (fresh_pair E now)
    = auth_service.create_refresh_token (routes_auth.sub_claim E) None now.
Proof. reflexivity. Qed.

(** ** Refresh on a subject without an account *)

Section UnknownSubject.
Context `{Jose}.

(** C9: the lookup in the refresh route is unguarded.  On a refresh-scoped
    token that decodes to a subject [E] without a record the route does
    not answer Unauthorized: reading [user.refresh_token] on the absent
    user raises [AttributeError]; so the route returns or fails with an
    HTTP error only when [E] resolves to an existing record. *)
Theorem refresh_requires_existing_subject
    (E token : string) (now : Z) (w : World) :
  coherent w →
  refresh_token_for E token now →
  let r := result (routes_auth.refresh_token token now) w in
  (find_user E w = None → r = Raise AttributeError ∧ ¬ is_unauthorized r)
  ∧ (returns r ∨ is_http r → ∃ u, find_user E w = Some u).
Proof.
  intros Hc Hd r.
  assert (Hnone : find_user E w = None → r = Raise AttributeError).
  { intros Hn. subst r. unfold result.
    destruct (lookup_coherent E w Hc) as (w1 & Hl & _).
    unfold routes_auth.refresh_token, mbind, M_bind, bind, lift.
    rewrite (decode_refresh_token_for _ _ _ Hd). simpl.
    by rewrite Hl, Hn. }
  split.
  - intros Hn. rewrite (Hnone Hn). by split; [|intros []].
  - intros Hr. destruct (find_user E w) as [u|]; [eauto|].
    rewrite Hnone in Hr by done. by destruct Hr.
Qed.
End UnknownSubject.

Lemma refresh_requires_existing_subject_witness :
  result (@routes_auth.refresh_token fixtures.jose "alice.refresh.0" 100) init
    = Raise AttributeError.
Proof.
  exact (proj1 (proj1 (@refresh_requires_existing_subject fixtures.jose
                         fixtures.alice_email "alice.refresh.0" 100 init
                         (@coherent_init) (refresh_token_for_alice 100))
                      eq_refl)).
Defined.

(** ** Login *)

Section Login.
Context `{Jose, CryptContext}.

(** C4: login looks the user up, then checks the [confirmed] flag, then
    verifies the password, and each failure has its own Unauthorized
    message; a failure leaves the table as it is; on success the pair of
    tokens is returned, the new refresh token is stored on the record and
    the cache entry of the email is dropped. *)
Theorem login_checks_in_order (username password : string) (now : Z)
    (w : World) :
  coherent w →
  let r := result (routes_auth.login username password now) w in
  let w' := world_after (routes_auth.login username password now) w in
  match find_user username w with
  | None =>
      r = Raise (HTTPException HTTP_401_UNAUTHORIZED "Invalid email")
      ∧ users w' = users w
  | Some u =>
      if negb (models.confirmed u) then
        r = Raise (HTTPException HTTP_401_UNAUTHORIZED "Email not confirmed")
        ∧ users w' = users w
      else
        match auth_service.verify_password password (models.password u) with
        | Raise e => r = Raise e ∧ users w' = users w
        | Return false =>
            r = Raise (HTTPException HTTP_401_UNAUTHORIZED "Invalid password")
            ∧ users w' = users w
        | Return true =>
            r = Return (fresh_pair username now)
            ∧ find_user username w'
                = Some (models.set_refresh_token
                          (Some (schemas.refresh_token
                                   (fresh_pair username now))) u)
            ∧ redis_db w' !! username = None
        end
  end
  ∧ "Invalid email" ≠ "Email not confirmed"
  ∧ "Email not confirmed" ≠ "Invalid password"
  ∧ "Invalid email" ≠ "Invalid password".
Proof.
  intros Hc r w'. split; [|done]. subst r w'. unfold result, world_after.
  destruct (find_user username w) as [u|] eqn:Hu.
  - destruct (update_token_after_lookup username u
                (Some (schemas.refresh_token (fresh_pair username now)))
                w Hc Hu)
      as (w1 & w2 & Hl & Hup & Hf & Hr & _).
    destruct (lookup_coherent username w Hc) as (w1' & Hl' & Hus & _).
    assert (w1' = w1) as -> by congruence.
    destruct (find_user_Some _ _ _ Hu) as (_ & _ & He).
    unfold routes_auth.login, mbind, M_bind, bind, lift. rewrite Hl.
    destruct (models.confirmed u); simpl; [|done].
    destruct (auth_service.verify_password password (models.password u))
      as [[|]|e]; simpl; [|done..].
    rewrite He. unfold fresh_pair in Hup. simpl in Hup. rewrite Hup.
    simpl. done.
  - destruct (lookup_coherent username w Hc) as (w1 & Hl & Hus & _).
    unfold routes_auth.login, mbind, M_bind, bind. rewrite Hl, Hu. done.
Qed.
End Login.

Lemma login_checks_in_order_witness :
  result (@routes_auth.login fixtures.jose fixtures.context
            fixtures.alice_email "pw12345678" 100) fixtures.w_alice
    = Return (@fresh_pair fixtures.jose fixtures.alice_email 100).
Proof.
  exact (proj1 (proj1 (@login_checks_in_order fixtures.jose fixtures.context
                         fixtures.alice_email "pw12345678" 100
                         fixtures.w_alice coherent_w_alice))).
Defined.

(** ** The bearer guard *)

Section Guard.
Context `{Jose}.

(** The guard on a token that decodes, case by case. *)
Lemma get_current_user_decoded token now payload w :
  jwt_decode now token = Some payload →
  auth_service.get_current_user token now w =
    match payload !! "scope" with
    | None => (Raise (KeyError "scope"), w)
    | Some scope =>
        if decide (scope = JStr "access_token") then
          match payload !! "sub" with
          | None => (Raise (KeyError "sub"), w)
          | Some JNull => (Raise auth_service.credentials_exception, w)
          | Some (JNum _) => (Raise TypeError, w)
          | Some (JStr E) =>
              match repository_users.get_user_by_email E w with
              | (Return (Some u), w1) => (Return u, w1)
              | (Return None, w1) =>
                  (Raise auth_service.credentials_exception, w1)
              | (Raise e, w1) => (Raise e, w1)
              end
          end
        else (Raise auth_service.credentials_exception, w)
    end.
Proof.
  intros Hd. unfold auth_service.get_current_user, mbind, M_bind, bind, lift.
  rewrite Hd. destruct (payload !! "scope") as [scope|]; [|done].
  destruct (decide (scope = JStr "access_token")); [|done].
  destruct (payload !! "sub") as [[E| |]|]; try done. simpl.
  by destruct (repository_users.get_user_by_email E w) as [[[u|]|err] w1].
Qed.

(** Where the guard does what the specification says: a token that does
    not decode, a scope that is present and not [access_token], and an
    access token whose subject has no record fail with Unauthorized; an
    access token of an existing record returns that record. *)
Lemma bearer_guard_cases token now w :
  coherent w →
  let r := result (auth_service.get_current_user token now) w in
  match jwt_decode now token with
  | None => is_unauthorized r
  | Some payload =>
      ∀ scope, payload !! "scope" = Some scope →
        (scope ≠ JStr "access_token" → is_unauthorized r)
        ∧ (scope = JStr "access_token" →
           ∀ E, payload !! "sub" = Some (JStr E) →
             match find_user E w with
             | Some u => r = Return u
             | None => is_unauthorized r
             end)
  end.
Proof.
  intros Hc r. subst r. unfold result.
  destruct (jwt_decode now token) as [payload|] eqn:Hd.
  - intros scope Hs. rewrite (get_current_user_decoded _ _ _ _ Hd), Hs.
    split.
    + intros Hne. by rewrite decide_False.
    + intros -> E HE. rewrite decide_True, HE by done.
      destruct (lookup_coherent E w Hc) as (w1 & -> & _).
      by destruct (find_user E w).
  - unfold auth_service.get_current_user, mbind, M_bind, bind, lift.
    by rewrite Hd.
Qed.

(** C3 fails on the code: a token without a [scope] claim, such as the
    email-verification token the service itself issues, and an access
    token without a [sub] claim make the guard raise [KeyError], which
    its [except JWTError] does not turn into Unauthorized. *)
Theorem bearer_guard_key_errors (E token : string) (issued now : Z)
    (payload : gmap string jval) (w : World) :
  (jwt_decode now
     (auth_service.create_email_token (routes_auth.sub_claim E) issued)
     = Some (auth_service.email_claims (routes_auth.sub_claim E) issued) →
   auth_service.get_current_user
     (auth_service.create_email_token (routes_auth.sub_claim E) issued)
     now w = (Raise (KeyError "scope"), w))
  ∧ (jwt_decode now token = Some payload →
     payload !! "scope" = Some (JStr "access_token") →
     payload !! "sub" = None →
     auth_service.get_current_user token now w
       = (Raise (KeyError "sub"), w))
  ∧ ¬ is_unauthorized (Raise (A := User) (KeyError "scope"))
  ∧ ¬ is_unauthorized (Raise (A := User) (KeyError "sub")).
Proof.
  split_and!; [| |by intros []..].
  - intros Hd. rewrite (get_current_user_decoded _ _ _ _ Hd).
    unfold auth_service.email_claims, routes_auth.sub_claim.
    by rewrite !lookup_insert_ne, lookup_singleton_ne by done.
  - intros Hd Hs Hsub. rewrite (get_current_user_decoded _ _ _ _ Hd), Hs.
    by rewrite decide_True, Hsub.
Qed.
End Guard.

Lemma bearer_guard_key_errors_witness :
  @auth_service.get_current_user fixtures.jose "alice.email.1" 200
    fixtures.w_alice = (Raise (KeyError "scope"), fixtures.w_alice).
Proof.
  exact (proj1 (@bearer_guard_key_errors fixtures.jose fixtures.alice_email
                  "" 100 200 ∅ fixtures.w_alice) eq_refl).
Defined.

(** ** Credential verification *)




(** ** The [confirmed] flag *)

Section Confirmed.
Context `{Jose, CryptContext}.

Lemma get_email_from_token_of E token now :
  token_of E token now →
  auth_service.get_email_from_token token now = Return (JStr E).
Proof.
  intros (p & Hd & Hs). unfold auth_service.get_email_from_token.
  by rewrite Hd, Hs.
Qed.

Lemma confirmed_email_route_known E token now u w :
  coherent w →
  token_of E token now →
  find_user E w = Some u →
  ∃ w',
    routes_auth.confirmed_email token now w =
      (Return (if models.confirmed u then "Your email is already confirmed"
               else "Email confirmed"), w')
    ∧ (models.confirmed u = true → users w' = users w)
    ∧ find_user E w' = Some (models.set_confirmed true u).
Proof.
  intros Hc Ht Hu.
  destruct (lookup_coherent E w Hc) as (w1 & Hl & Hus & _ & _ & _ & Hf1).
  destruct (find_user_Some _ _ _ Hu) as (i & Hi & He).
  unfold routes_auth.confirmed_email, mbind, M_bind, bind, lift.
  rewrite (get_email_from_token_of _ _ _ Ht). simpl. rewrite Hl, Hu.
  destruct (models.confirmed u) eqn:Hconf.
  - exists w1. split; [done|]. split; [done|].
    rewrite Hf1, Hu. f_equal. unfold models.set_confirmed.
    destruct u; simpl in *; congruence.
  - rewrite confirmed_email_eq, Hus, Hi. eexists. split; [done|].
    split; [done|]. rewrite <- Hus in Hi |- *.
    erewrite find_user_updated by done. by rewrite decide_True.
Qed.

(** C7: a record is created with [confirmed = false]; over any sequence
    of operations a record that is confirmed stays confirmed; the only
    operation that changes the flag of a record is the confirmation of an
    email; and that operation, on a record already confirmed, returns
    and leaves the table as it is. *)
Theorem confirmed_flag_monotone :
  (∀ body now w u w',
     repository_users.create_user body now w = (Return u, w') →
     models.confirmed u = false
     ∧ find_user (schemas.email body) w' = Some u)
  ∧ (∀ rs w e u,
       find_user e w = Some u → models.confirmed u = true →
       ∃ u', find_user e (run rs w) = Some u'
             ∧ models.confirmed u' = true)
  ∧ (∀ r w e u u',
       find_user e w = Some u → find_user e (handle r w) = Some u' →
       models.confirmed u' ≠ models.confirmed u →
       ∃ token now, r = ConfirmedEmail token now)
  ∧ (∀ E token now u w,
       coherent w → token_of E token now → find_user E w = Some u →
       models.confirmed u = true →
       result (routes_auth.confirmed_email token now) w
         = Return "Your email is already confirmed"
       ∧ users (world_after (routes_auth.confirmed_email token now) w)
         = users w).
Proof.
  split_and!.
  - intros body now w u w'. rewrite create_user_eq.
    destruct (list_find _ _) eqn:Hf; [done|]. intros [= <- <-].
    split; [done|]. rewrite find_user_created by (unfold find_user; by rewrite Hf).
    by rewrite decide_True.
  - intros rs w e u Hu Hconf.
    destruct (run_sound rs w) as [_ Hg].
    destruct (Hg _ _ Hu) as (u' & Hu' & Hc'). eauto.
  - intros r w e u u' Hu Hu' Hne.
    assert (Hr : (∃ token now, r = ConfirmedEmail token now)
                 ∨ ∀ token now, r ≠ ConfirmedEmail token now)
      by (destruct r; eauto).
    destruct Hr as [|Hr]; [done|].
    destruct (handle_quiet r w Hr) as [_ Hs].
    destruct (Hs _ _ Hu) as (u2 & Hu2 & Hc2). congruence.
  - intros E token now u w Hc Ht Hu Hconf. unfold result, world_after.
    destruct (confirmed_email_route_known E token now u w Hc Ht Hu)
      as (w' & -> & Hus & _). simpl. rewrite Hconf. auto.
Qed.
End Confirmed.

Lemma token_of_alice now :
  @token_of fixtures.jose fixtures.alice_email "alice.email.1" now.
Proof. eexists. split; reflexivity. Defined.

Lemma confirmed_flag_monotone_witness :
  result (@routes_auth.confirmed_email fixtures.jose "alice.email.1" 200)
         fixtures.w_alice
    = Return "Your email is already confirmed".
Proof.
  exact (proj1 (proj2 (proj2 (proj2
           (@confirmed_flag_monotone fixtures.jose fixtures.context)))
           fixtures.alice_email "alice.email.1" 200 fixtures.alice
           fixtures.w_alice coherent_w_alice (token_of_alice 200)
           eq_refl eq_refl)).
Defined.

(** ** The scenario of the specification, run on the example libraries *)

Example scenario_signup_confirm_login_refresh :
  let login now :=
    @routes_auth.login fixtures.jose fixtures.context fixtures.alice_email
      "pw12345678" now in
  let refresh token now := @routes_auth.refresh_token fixtures.jose token now in
  let w1 :=
    @handle fixtures.jose fixtures.context
      (Signup fixtures.signup_alice "http://testserver/" "s1" 50) init in
  let w2 :=
    @handle fixtures.jose fixtures.context
      (ConfirmedEmail "alice.email.1" 70) w1 in
  let w3 := world_after (login 100) w2 in
  let w4 := world_after (refresh "alice.refresh.1" 200) w3 in
  result (login 60) w1
    = Raise (HTTPException HTTP_401_UNAUTHORIZED "Email not confirmed")
  ∧ result (login 100) w2
    = Return (schemas.mkTokenModel "alice.access.1" "alice.refresh.1" "bearer")
  ∧ result (refresh "alice.refresh.1" 200) w3
    = Return (schemas.mkTokenModel "alice.access.1" "alice.refresh.2" "bearer")
  ∧ result (refresh "alice.refresh.1" 300) w4
    = Raise (HTTPException HTTP_401_UNAUTHORIZED "Invalid refresh token")
  ∧ (models.refresh_token <$>
       find_user fixtures.alice_email
         (world_after (refresh "alice.refresh.1" 300) w4)) = Some None.
Proof. vm_compute. done. Qed.

(** * Further properties of the user repository *)

Section Reachable.
Context `{Jose, CryptContext}.

(** X1: in every state the system reaches from the empty one, each cache
    entry is the snapshot of what the store holds, so the read-through
    lookup answers exactly the record of the store (or its absence). *)
Theorem cache_is_transparent (w : World) (e : string) :
  reachable w →
  coherent w
  ∧ result (repository_users.get_user_by_email e) w = Return (find_user e w)
  ∧ coherent (world_after (repository_users.get_user_by_email e) w).
Proof.
  intros Hw. pose proof (reachable_coherent w Hw) as Hc.
  destruct (lookup_coherent e w Hc) as (w1 & Hl & _ & _ & _ & Hc1 & _).
  unfold result, world_after. by rewrite Hl.
Qed.
End Reachable.

Lemma cache_is_transparent_witness :
  result (repository_users.get_user_by_email fixtures.alice_email)
    (@handle fixtures.jose fixtures.context
       (Signup fixtures.signup_alice "http://testserver/" "s1" 50) init)
  = Return (find_user fixtures.alice_email
              (@handle fixtures.jose fixtures.context
                 (Signup fixtures.signup_alice "http://testserver/" "s1" 50)
                 init)).
Proof.
  exact (proj1 (proj2 (@cache_is_transparent fixtures.jose fixtures.context
                         _ fixtures.alice_email
                         (reachable_step _ _ reachable_init)))).
Defined.

(** X2: a lookup never touches the table, the sequence or the queued
    tasks, and keeps every cache entry that was there; repeated at once it
    gives the same answer and changes nothing. *)
Theorem lookup_is_idempotent (e : string) (w : World) :
  let r := result (repository_users.get_user_by_email e) w in
  let w1 := world_after (repository_users.get_user_by_email e) w in
  only_caches w w1
  ∧ (∀ e', e' ≠ e → redis_db w1 !! e' = redis_db w !! e')
  ∧ repository_users.get_user_by_email e w1 = (r, w1).
Proof.
  intros r w1. subst r w1. unfold result, world_after.
  rewrite get_user_by_email_eq.
  destruct (redis_db w !! e) as [d|] eqn:Hd; simpl.
  - split_and!; [by repeat split|done|]. by rewrite get_user_by_email_eq, Hd.
  - split_and!.
    + repeat split; try done. simpl. by apply insert_subseteq.
    + intros e' Hne. by rewrite lookup_insert_ne.
    + rewrite get_user_by_email_eq. simpl. by rewrite lookup_insert_eq.
Qed.

(** X3: each of the four updates, called for an email without a row,
    raises [AttributeError] at the attribute assignment and leaves store
    and cache untouched. *)
Theorem updates_need_a_row (E : string) (w : World) :
  find_user E w = None →
  (∀ cache_user token, models.email cache_user = E →
     repository_users.update_token cache_user token w
       = (Raise AttributeError, w))
  ∧ repository_users.confirmed_email E w = (Raise AttributeError, w)
  ∧ (∀ cache_user password, models.email cache_user = E →
       repository_users.update_password cache_user password w
         = (Raise AttributeError, w))
  ∧ (∀ url, repository_users.update_avatar E url w
              = (Raise AttributeError, w)).
Proof.
  intros Hn%find_user_None. split_and!.
  - intros cu t <-. by rewrite update_token_eq, Hn.
  - by rewrite confirmed_email_eq, Hn.
  - intros cu p <-. by rewrite update_password_eq, Hn.
  - intros url. by rewrite update_avatar_eq, Hn.
Qed.

Lemma updates_need_a_row_witness :
  repository_users.confirmed_email "bob@example.com" fixtures.w_alice
    = (Raise AttributeError, fixtures.w_alice).
Proof.
  exact (proj1 (proj2 (updates_need_a_row "bob@example.com" fixtures.w_alice
                         eq_refl))).
Defined.




(** * Further properties of the routes *)

Section MoreRoutes.
Context `{Jose, CryptContext}.

Lemma login_on_record username password now u w :
  coherent w →
  find_user username w = Some u →
  ∃ w1,
    repository_users.get_user_by_email username w = (Return (Some u), w1)
    ∧ users w1 = users w
    ∧ routes_auth.login username password now w =
        if negb (models.confirmed u) then
          (Raise (HTTPException HTTP_401_UNAUTHORIZED "Email not confirmed"), w1)
        else
          match auth_service.verify_password password (models.password u) with
          | Raise e => (Raise e, w1)
          | Return false =>
              (Raise (HTTPException HTTP_401_UNAUTHORIZED "Invalid password"),
               w1)
          | Return true =>
              (Return (fresh_pair username now),
               world_after
                 (repository_users.update_token u
                    (Some (schemas.refresh_token (fresh_pair username now))))
                 w1)
          end.
Proof.
  intros Hc Hu.
  destruct (update_token_after_lookup username u
              (Some (schemas.refresh_token (fresh_pair username now))) w Hc Hu)
    as (w1 & w2 & Hl & Hup & _).
  destruct (lookup_coherent username w Hc) as (w1' & Hl' & Hus & _).
  assert (w1' = w1) as -> by congruence.
  destruct (find_user_Some _ _ _ Hu) as (_ & _ & He).
  exists w1. split; [done|]. split; [done|].
  unfold routes_auth.login, mbind, M_bind, bind, lift. rewrite Hl.
  destruct (models.confirmed u); simpl; [|done].
  destruct (auth_service.verify_password password (models.password u))
    as [[|]|err]; simpl; [|done..].
  rewrite He. unfold world_after. unfold fresh_pair in Hup. simpl in Hup.
  by rewrite Hup.
Qed.

(** X5: in a coherent world signup answers 409 "Account already exists"
    when the store has a record for the email, leaving table and queue as
    they are (the insert never runs into the unique constraint); otherwise
    it appends one unconfirmed row with the hashed password, an empty
    avatar and no refresh token, queues exactly one confirmation mail for
    it and leaves no cache entry for the email. *)
Theorem signup_outcome (body : schemas.UserModel) (base_url salt : string)
    (now : Z) (w : World) :
  coherent w →
  let r := result (routes_auth.signup body base_url salt now) w in
  let w' := world_after (routes_auth.signup body base_url salt now) w in
  match find_user (schemas.email body) w with
  | Some _ =>
      r = Raise (HTTPException HTTP_409_CONFLICT "Account already exists")
      ∧ users w' = users w
      ∧ background_tasks w' = background_tasks w
  | None =>
      let u := models.mkUser (next_id w) (schemas.username body)
                 (schemas.email body)
                 (auth_service.get_password_hash salt (schemas.password body))
                 false (Some "") now None in
      r = Return
            (u, "User successfully created. Check your email for confirmation.")
      ∧ users w' = (users w ++ [u])%list
      ∧ find_user (schemas.email body) w' = Some u
      ∧ background_tasks w' =
          (background_tasks w ++
             [send_email (schemas.email body) (schemas.username body)
                         base_url])%list
      ∧ redis_db w' !! schemas.email body = None
  end.
Proof.
  intros Hc r w'. subst r w'. unfold result, world_after.
  destruct (lookup_coherent (schemas.email body) w Hc)
    as (w1 & Hl & Hus & Hid & Htasks & _ & Hf1).
  unfold routes_auth.signup, mbind, M_bind, bind. rewrite Hl.
  destruct (find_user (schemas.email body) w) as [u|] eqn:Hu; [done|].
  rewrite create_user_eq. simpl.
  assert (Hn1 : find_user (schemas.email body) w1 = None) by by rewrite Hf1.
  rewrite (find_user_None _ _ Hn1). unfold add_task, mret, M_ret, ret. simpl.
  rewrite Hus, Hid, Htasks. unfold new_row. simpl. rewrite Hid.
  split_and!; [done..| |done|apply lookup_delete_eq].
  unfold find_user. simpl. rewrite list_find_snoc.
  fold (find_user (schemas.email body) w). rewrite Hu. simpl.
  by rewrite decide_True.
Qed.

(** X6: for an email without a record, signup followed by a login with the
    same credentials fails with "Email not confirmed"; after the
    confirmation route has run on a token for that email the same login
    returns the pair of tokens, provided the library verifies the password
    against the digest it made of it. *)
Theorem signup_confirm_login (body : schemas.UserModel)
    (base_url salt token : string) (now1 now2 now3 now4 : Z) (w : World) :
  coherent w →
  find_user (schemas.email body) w = None →
  token_of (schemas.email body) token now3 →
  pwd_verify (schemas.password body) (pwd_hash salt (schemas.password body))
    = Return true →
  let login now :=
    routes_auth.login (schemas.email body) (schemas.password body) now in
  let w1 := world_after (routes_auth.signup body base_url salt now1) w in
  let w2 := world_after (login now2) w1 in
  let w3 := world_after (routes_auth.confirmed_email token now3) w2 in
  result (login now2) w1
    = Raise (HTTPException HTTP_401_UNAUTHORIZED "Email not confirmed")
  ∧ result (routes_auth.confirmed_email token now3) w2
    = Return "Email confirmed"
  ∧ result (login now4) w3 = Return (fresh_pair (schemas.email body) now4).
Proof.
  intros Hc Hn Ht Hv login w1 w2 w3.
  pose proof (signup_outcome body base_url salt now1 w Hc) as Hs.
  simpl in Hs. rewrite Hn in Hs. destruct Hs as (_ & _ & Hu1 & _).
  fold w1 in Hu1.
  assert (Hc1 : coherent w1) by (by apply (quiet_signup body base_url salt now1 w)).
  set (u := models.mkUser _ _ _ _ _ _ _ _) in Hu1.
  destruct (login_on_record (schemas.email body) (schemas.password body)
              now2 u w1 Hc1 Hu1) as (w1' & Hl1 & Hus1 & Hlogin).
  simpl in Hlogin.
  assert (Hr2 : result (login now2) w1
    = Raise (HTTPException HTTP_401_UNAUTHORIZED "Email not confirmed"))
    by (unfold result, login; by rewrite Hlogin).
  assert (Hw2 : w2 = w1') by (unfold w2, world_after, login; by rewrite Hlogin).
  assert (Hc2 : coherent w2)
    by (by apply (quiet_login (schemas.email body) (schemas.password body)
                    now2 w1)).
  assert (Hu2 : find_user (schemas.email body) w2 = Some u).
  { rewrite Hw2. unfold find_user. rewrite Hus1. exact Hu1. }
  destruct (confirmed_email_route_known (schemas.email body) token now3 u w2
              Hc2 Ht Hu2) as (w3' & Hconf & _ & Hu3).
  assert (Hw3 : w3 = w3') by (unfold w3, world_after; by rewrite Hconf).
  assert (Hc3 : coherent w3)
    by (by apply (sound_confirmed_email_route token now3 w2)).
  rewrite <- Hw3 in Hu3.
  destruct (login_on_record (schemas.email body) (schemas.password body)
              now4 _ w3 Hc3 Hu3) as (w4 & _ & _ & Hlogin4).
  simpl in Hlogin4. unfold auth_service.verify_password in Hlogin4.
  unfold auth_service.get_password_hash in Hlogin4. rewrite Hv in Hlogin4.
  split_and!; [done| |].
  - unfold result. by rewrite Hconf.
  - unfold result, login. by rewrite Hlogin4.
Qed.
End MoreRoutes.

Lemma signup_outcome_witness :
  background_tasks
    (world_after
       (@routes_auth.signup fixtures.context fixtures.signup_alice
          "http://testserver/" "s1" 50) init)
  = [send_email fixtures.alice_email "alice" "http://testserver/"].
Proof.
  exact (proj1 (proj2 (proj2 (proj2
           (@signup_outcome fixtures.context fixtures.signup_alice
              "http://testserver/" "s1" 50 init coherent_init))))).
Defined.

Lemma signup_confirm_login_witness :
  result (@routes_auth.login fixtures.jose fixtures.context
            fixtures.alice_email "pw12345678" 60)
    (world_after
       (@routes_auth.signup fixtures.context fixtures.signup_alice
          "http://testserver/" "s1" 50) init)
  = Raise (HTTPException HTTP_401_UNAUTHORIZED "Email not confirmed").
Proof.
  exact (proj1 (@signup_confirm_login fixtures.jose fixtures.context
                  fixtures.signup_alice "http://testserver/" "s1"
                  "alice.email.1" 50 60 70 100 init coherent_init eq_refl
                  (token_of_alice 70) eq_refl)).
Defined.

Section MoreRoutes2.
Context `{Jose, CryptContext}.

(** X7: the new-password route asks for no token.  For an email without a
    record it answers 400 "Invalid email" and leaves the table as it is;
    for an existing record it stores the digest of the new password and
    drops the cache entry, while the [confirmed] flag and the stored
    refresh token stay: a refresh token issued before the change is still
    accepted after it. *)
Theorem new_password_outcome (body : schemas.RequestPassword) (salt : string)
    (w : World) :
  coherent w →
  let E := schemas.rp_email body in
  let r := result (routes_auth.new_password body salt) w in
  let w' := world_after (routes_auth.new_password body salt) w in
  match find_user E w with
  | None =>
      r = Raise (HTTPException HTTP_400_BAD_REQUEST "Invalid email")
      ∧ users w' = users w
  | Some u =>
      r = Return "Password updated"
      ∧ find_user E w'
          = Some (models.set_password
                    (auth_service.get_password_hash salt
                       (schemas.rp_password body)) u)
      ∧ redis_db w' !! E = None
      ∧ (∀ token now,
           refresh_token_for E token now →
           models.refresh_token u = Some token →
           result (routes_auth.refresh_token token now) w'
             = Return (fresh_pair E now))
  end.
Proof.
  intros Hc E r w'. subst r w'. unfold result, world_after.
  destruct (lookup_coherent E w Hc) as (w1 & Hl & Hus & _ & _ & Hc1 & Hf1).
  unfold routes_auth.new_password, mbind, M_bind, bind. fold E. rewrite Hl.
  destruct (find_user E w) as [u|] eqn:Hu; [|done].
  destruct (find_user_Some _ _ _ Hu) as (i & Hi & He).
  rewrite update_password_eq, He, Hus, Hi. simpl. rewrite He.
  rewrite <- Hus in Hi.
  set (u' := models.set_password _ u).
  assert (Hu' : find_user E
            (with_cache (delete E (redis_db w1))
               (with_users (<[i := u']> (users w1)) w1)) = Some u').
  { erewrite find_user_updated by done. by rewrite decide_True. }
  rewrite <- Hus. split_and!; [done|done|apply lookup_delete_eq|].
  intros token now Ht Hstored.
  assert (Hc' : coherent
            (with_cache (delete E (redis_db w1))
               (with_users (<[i := u']> (users w1)) w1)))
    by (by eapply coherent_updated).
  destruct (refresh_token_known E token now u' _ Hc' Ht Hu')
    as (w2 & Hr & _).
  rewrite Hr. by rewrite decide_False by (by intros []).
Qed.

(** X8: the request to resend the confirmation mail never changes the
    table.  It queues one mail exactly when the email has an unconfirmed
    record; it answers "Your email is already confirmed" exactly when the
    record is confirmed, and gives one and the same answer for an
    unconfirmed record and for no record at all. *)
Theorem request_email_outcome (email base_url : string) (w : World) :
  coherent w →
  let r := result (routes_auth.request_email email base_url) w in
  let w' := world_after (routes_auth.request_email email base_url) w in
  users w' = users w
  ∧ match find_user email w with
    | Some u =>
        if models.confirmed u then
          r = Return "Your email is already confirmed"
          ∧ background_tasks w' = background_tasks w
        else
          r = Return "Check your email for confirmation."
          ∧ background_tasks w' =
              (background_tasks w ++
                 [send_email email (models.username u) base_url])%list
    | None =>
        r = Return "Check your email for confirmation."
        ∧ background_tasks w' = background_tasks w
    end.
Proof.
  intros Hc r w'. subst r w'. unfold result, world_after.
  destruct (lookup_coherent email w Hc) as (w1 & Hl & Hus & _ & Ht & _).
  unfold routes_auth.request_email, mbind, M_bind, bind. rewrite Hl.
  destruct (find_user email w) as [u|] eqn:Hu; [|done].
  destruct (find_user_Some _ _ _ Hu) as (_ & _ & He).
  destruct (models.confirmed u); simpl; [done|]. by rewrite Hus, Ht, He.
Qed.

(** X9: the password-reset request never changes the table and queues one
    reset mail, addressed to the record's email and username, exactly when
    the email has a record. *)
Theorem password_reset_mail (email base_url : string) (w : World) :
  coherent w →
  let w' := world_after (routes_auth.password_reset email base_url) w in
  users w' = users w
  ∧ background_tasks w' =
      (background_tasks w ++
         match find_user email w with
         | Some u =>
             [send_email_reset_password email (models.username u) base_url]
         | None => []
         end)%list.
Proof.
  intros Hc w'. subst w'. unfold world_after.
  destruct (lookup_coherent email w Hc) as (w1 & Hl & Hus & _ & Ht & _).
  unfold routes_auth.password_reset, mbind, M_bind, bind. rewrite Hl.
  destruct (find_user email w) as [u|] eqn:Hu; simpl.
  - destruct (find_user_Some _ _ _ Hu) as (_ & _ & He).
    by rewrite Hus, Ht, He.
  - by rewrite Hus, Ht, app_nil_r.
Qed.
End MoreRoutes2.

Lemma new_password_outcome_witness :
  result (@routes_auth.new_password fixtures.context
            (schemas.mkRequestPassword fixtures.alice_email "another-pw")
            "s2") fixtures.w_alice
  = Return "Password updated".
Proof.
  exact (proj1 (@new_password_outcome fixtures.jose fixtures.context
                  (schemas.mkRequestPassword fixtures.alice_email "another-pw")
                  "s2" fixtures.w_alice coherent_w_alice)).
Defined.

Lemma request_email_outcome_witness :
  result (routes_auth.request_email fixtures.alice_email "http://testserver/")
         fixtures.w_alice
  = Return "Your email is already confirmed".
Proof.
  exact (proj1 (proj2 (request_email_outcome fixtures.alice_email
                         "http://testserver/" fixtures.w_alice
                         coherent_w_alice))).
Defined.

Lemma password_reset_mail_witness :
  background_tasks
    (world_after
       (routes_auth.password_reset fixtures.alice_email "http://testserver/")
       fixtures.w_alice)
  = [send_email_reset_password fixtures.alice_email "alice"
       "http://testserver/"].
Proof.
  exact (proj2 (password_reset_mail fixtures.alice_email "http://testserver/"
                  fixtures.w_alice coherent_w_alice)).
Defined.

(** * Further properties of the token service *)



Section Scopes.
Context `{Jose}.

(** X10: the scopes keep the two kinds of token apart.  For an access token
    and a refresh token built by the service for [E], each decoding to the
    claims it was built from: the refresh decoder returns [E] on the
    refresh token and fails with 401 "Invalid scope for token" on the
    access token; the bearer guard fails with Unauthorized on the refresh
    token and, in a coherent world, returns the record of [E] on the access
    token. *)
Theorem scopes_separate_tokens (E : string) (d : option Z) (issued now : Z)
    (w : World) :
  let access :=
    auth_service.create_access_token (routes_auth.sub_claim E) d issued in
  let refresh :=
    auth_service.create_refresh_token (routes_auth.sub_claim E) d issued in
  jwt_decode now access
    = Some (auth_service.access_claims (routes_auth.sub_claim E) d issued) →
  jwt_decode now refresh
    = Some (auth_service.refresh_claims (routes_auth.sub_claim E) d issued) →
  auth_service.decode_refresh_token refresh now = Return (JStr E)
  ∧ auth_service.decode_refresh_token access now
    = Raise (HTTPException HTTP_401_UNAUTHORIZED "Invalid scope for token")
  ∧ is_unauthorized (result (auth_service.get_current_user refresh now) w)
  ∧ (coherent w → ∀ u, find_user E w = Some u →
       result (auth_service.get_current_user access now) w = Return u).
Proof.
  intros access refresh Ha Hr.
  split_and!.
  - unfold auth_service.decode_refresh_token. rewrite Hr.
    unfold auth_service.refresh_claims, routes_auth.sub_claim.
    rewrite lookup_insert_eq, decide_True by done.
    by rewrite !lookup_insert_ne, lookup_singleton_eq by done.
  - unfold auth_service.decode_refresh_token. rewrite Ha.
    unfold auth_service.access_claims.
    by rewrite lookup_insert_eq, decide_False by done.
  - unfold result. rewrite (get_current_user_decoded _ _ _ _ Hr).
    unfold auth_service.refresh_claims.
    by rewrite lookup_insert_eq, decide_False by done.
  - intros Hc u Hu. unfold result.
    rewrite (get_current_user_decoded _ _ _ _ Ha).
    unfold auth_service.access_claims, routes_auth.sub_claim.
    rewrite lookup_insert_eq, decide_True by done.
    rewrite !lookup_insert_ne, lookup_singleton_eq by done.
    destruct (lookup_coherent E w Hc) as (w1 & -> & _). by rewrite Hu.
Qed.

(** X14: the refresh decoder reads [scope] and [sub] by subscript.  A
    token that decodes to a payload without a [scope] entry, such as the
    email token the service builds, makes it raise [KeyError]; so does a
    refresh-scoped payload without [sub]; on a token that does not decode
    and on a scope that is present and different it fails with 401. *)
Theorem decode_refresh_token_cases (token : string) (now : Z) :
  match jwt_decode now token with
  | None =>
      auth_service.decode_refresh_token token now
        = Raise (HTTPException HTTP_401_UNAUTHORIZED
                   "Could not validate credentials")
  | Some payload =>
      (payload !! "scope" = None →
         auth_service.decode_refresh_token token now
           = Raise (KeyError "scope"))
      ∧ (∀ scope, payload !! "scope" = Some scope →
           scope ≠ JStr "refresh_token" →
           auth_service.decode_refresh_token token now
             = Raise (HTTPException HTTP_401_UNAUTHORIZED
                        "Invalid scope for token"))
      ∧ (payload !! "scope" = Some (JStr "refresh_token") →
           auth_service.decode_refresh_token token now
             = match payload !! "sub" with
               | Some email => Return email
               | None => Raise (KeyError "sub")
               end)
  end
  ∧ (∀ E issued w,
       jwt_decode now
         (auth_service.create_email_token (routes_auth.sub_claim E) issued)
         = Some (auth_service.email_claims (routes_auth.sub_claim E) issued) →
       routes_auth.refresh_token
         (auth_service.create_email_token (routes_auth.sub_claim E) issued)
         now w = (Raise (KeyError "scope"), w)).
Proof.
  split.
  - unfold auth_service.decode_refresh_token.
    destruct (jwt_decode now token) as [payload|]; [|done].
    split_and!.
    + by intros ->.
    + intros scope -> Hne. by rewrite decide_False.
    + intros ->. by rewrite decide_True.
  - intros E issued w Hd.
    unfold routes_auth.refresh_token, mbind, M_bind, bind, lift.
    unfold auth_service.decode_refresh_token. rewrite Hd.
    unfold auth_service.email_claims, routes_auth.sub_claim.
    by rewrite !lookup_insert_ne, lookup_singleton_ne by done.
Qed.

(** X11: the decoder of email tokens asks for no scope, so the
    password-reset confirmation accepts any token that decodes with the
    subject [E], an access token issued at login included: it answers the
    email when [E] has a record and 400 otherwise, and never changes the
    table. *)
Theorem confirm_password_reset_any_scope (E token : string) (now : Z)
    (w : World) :
  coherent w →
  token_of E token now →
  let r := result (routes_auth.confirm_password_reset token now) w in
  let w' := world_after (routes_auth.confirm_password_reset token now) w in
  users w' = users w
  ∧ r = match find_user E w with
        | Some _ => Return (E, "User confirmed password reset")
        | None =>
            Raise (HTTPException HTTP_400_BAD_REQUEST
                     "Confirm password reset error")
        end
  ∧ (∀ d issued,
       jwt_decode now
         (auth_service.create_access_token (routes_auth.sub_claim E) d issued)
         = Some (auth_service.access_claims (routes_auth.sub_claim E) d issued) →
       token_of E
         (auth_service.create_access_token (routes_auth.sub_claim E) d issued)
         now).
Proof.
  intros Hc Ht r w'. subst r w'. unfold result, world_after.
  destruct (lookup_coherent E w Hc) as (w1 & Hl & Hus & _).
  unfold routes_auth.confirm_password_reset, mbind, M_bind, bind, lift.
  rewrite (get_email_from_token_of _ _ _ Ht). simpl. rewrite Hl.
  split_and!.
  - by destruct (find_user E w).
  - by destruct (find_user E w).
  - intros d issued Hd. eexists. split; [exact Hd|].
    unfold auth_service.access_claims, routes_auth.sub_claim.
    by rewrite !lookup_insert_ne, lookup_singleton_eq by done.
Qed.
End Scopes.

Lemma scopes_separate_tokens_witness :
  @auth_service.decode_refresh_token fixtures.jose
    (@auth_service.create_access_token fixtures.jose
       (routes_auth.sub_claim fixtures.alice_email) None 100) 150
  = Raise (HTTPException HTTP_401_UNAUTHORIZED "Invalid scope for token").
Proof.
  exact (proj1 (proj2 (@scopes_separate_tokens fixtures.jose
                         fixtures.alice_email None 100 150 fixtures.w_alice
                         eq_refl eq_refl))).
Defined.

Lemma decode_refresh_token_cases_witness :
  @routes_auth.refresh_token fixtures.jose "alice.email.1" 150
    fixtures.w_alice = (Raise (KeyError "scope"), fixtures.w_alice).
Proof.
  exact (proj2 (@decode_refresh_token_cases fixtures.jose "" 150)
           fixtures.alice_email 100 fixtures.w_alice eq_refl).
Defined.

Lemma confirm_password_reset_any_scope_witness :
  result (@routes_auth.confirm_password_reset fixtures.jose
            "alice.access.1" 150) fixtures.w_alice
  = Return (fixtures.alice_email, "User confirmed password reset").
Proof.
  assert (Ht : @token_of fixtures.jose fixtures.alice_email
                 "alice.access.1" 150).
  { eexists. split; reflexivity. }
  exact (proj1 (proj2 (@confirm_password_reset_any_scope fixtures.jose
                         fixtures.alice_email "alice.access.1" 150
                         fixtures.w_alice coherent_w_alice Ht))).
Defined.

(** * Operations that only read the store *)

Global Instance only_caches_preorder : PreOrder only_caches.
Proof.
  split.
  - intros w. by repeat split.
  - intros w1 w2 w3 (Hu & Hn & Ht & Hc) (Hu' & Hn' & Ht' & Hc').
    repeat split; try congruence. by etrans.
Qed.

Lemma only_caches_get_user_by_email e :
  respects only_caches (repository_users.get_user_by_email e).
Proof.
  intros w. unfold world_after. rewrite get_user_by_email_eq.
  destruct (redis_db w !! e) as [d|] eqn:Hd; simpl; [done|].
  repeat split; try done. simpl. by apply insert_subseteq.
Qed.

Ltac respects_only_caches :=
  repeat lazymatch goal with
    | |- respects _ (repository_users.get_user_by_email _) =>
        apply only_caches_get_user_by_email
    | |- _ => respects_step only_caches
    end.

Section ReadOnly.
Context `{Jose}.

(** X13: the bearer guard and the password-reset confirmation only read
    the store, whatever the token: the table, the id sequence and the
    queued tasks are left as they are and no cache entry is removed or
    changed. *)
Theorem guard_only_reads (token : string) (now : Z) (w : World) :
  only_caches w (world_after (auth_service.get_current_user token now) w)
  ∧ only_caches w
      (world_after (routes_auth.confirm_password_reset token now) w).
Proof.
  split.
  - revert w. change (respects only_caches
                        (auth_service.get_current_user token now)).
    unfold auth_service.get_current_user. respects_only_caches.
  - revert w. change (respects only_caches
                        (routes_auth.confirm_password_reset token now)).
    unfold routes_auth.confirm_password_reset. respects_only_caches.
Qed.
End ReadOnly.

(** * The contacts repository *)

Section ListFacts.
Context {A : Type} (P : A → Prop) `{!∀ x, Decision (P x)}.

Lemma snd_shift (o : option (nat * A)) :
  snd <$> (prod_map S id <$> o) = snd <$> o.
Proof. by destruct o as [[??]|]. Qed.

Lemma list_find_delete_other (l : list A) i x :
  l !! i = Some x → ¬ P x →
  snd <$> list_find P (delete i l) = snd <$> list_find P l.
Proof.
  revert i. induction l as [|y l IH]; intros [|i] Hi Hx; simplify_eq/=.
  - rewrite decide_False by done. by rewrite snd_shift.
  - case_decide; [done|]. rewrite !snd_shift. by eapply IH.
Qed.

Lemma list_find_insert_other (l : list A) i x y :
  l !! i = Some x → ¬ P x → ¬ P y →
  snd <$> list_find P (<[i := y]> l) = snd <$> list_find P l.
Proof.
  revert i. induction l as [|z l IH]; intros [|i] Hi Hx Hy; simplify_eq/=.
  - by rewrite !decide_False by done.
  - case_decide; [done|]. rewrite !snd_shift. by eapply IH.
Qed.

Lemma list_find_insert_same (l : list A) i x y :
  list_find P l = Some (i, x) → P y →
  list_find P (<[i := y]> l) = Some (i, y).
Proof.
  revert i. induction l as [|z l IH]; intros i Hf Hy; [done|].
  simpl in Hf. destruct (decide (P z)) as [Hz|Hz].
  - simplify_eq/=. by rewrite decide_True.
  - destruct (list_find P l) as [[j w]|] eqn:Hl; simplify_eq/=.
    rewrite decide_False by done. by rewrite (IH j eq_refl Hy).
Qed.
End ListFacts.

Lemma filter_delete_false {A} (f : A → bool) (l : list A) i x :
  l !! i = Some x → f x = false →
  List.filter f (delete i l) = List.filter f l.
Proof.
  revert i. induction l as [|y l IH]; intros [|i] Hi Hx; simplify_eq/=.
  - by rewrite Hx.
  - by erewrite IH.
Qed.

Lemma filter_insert_false {A} (f : A → bool) (l : list A) i x y :
  l !! i = Some x → f x = false → f y = false →
  List.filter f (<[i := y]> l) = List.filter f l.
Proof.
  revert i. induction l as [|z l IH]; intros [|i] Hi Hx Hy; simplify_eq/=.
  - by rewrite Hx, Hy.
  - by erewrite IH.
Qed.

Lemma owned_by_true user c :
  repository_contacts.owned_by user c = true
  ↔ contact_models.user_id c = Some (models.id user).
Proof. unfold repository_contacts.owned_by. by rewrite bool_decide_eq_true. Qed.

Lemma find_contact_Some contact_id user db i c :
  repository_contacts.find_contact contact_id user db = Some (i, c) →
  contacts db !! i = Some c
  ∧ contact_models.id c = contact_id
  ∧ contact_models.user_id c = Some (models.id user).
Proof.
  unfold repository_contacts.find_contact.
  intros (Hi & [? ?] & _)%list_find_Some. done.
Qed.

Lemma get_contact_Some contact_id user db c :
  repository_contacts.get_contact contact_id user db = Some c →
  ∃ i, repository_contacts.find_contact contact_id user db = Some (i, c).
Proof.
  unfold repository_contacts.get_contact.
  intros ([i c'] & Hf & ?)%fmap_Some. simplify_eq/=. eauto.
Qed.

Lemma get_contact_None contact_id user db :
  repository_contacts.get_contact contact_id user db = None →
  repository_contacts.find_contact contact_id user db = None.
Proof. unfold repository_contacts.get_contact. by intros ?%fmap_None. Qed.

Section ContactsReads.
Context `{SqlDialect}.

(** X15: every read of the contacts repository stays inside the caller's
    own contacts: [get_contact] answers only a row of the table that has
    the requested id and belongs to the user, and every row that
    [get_contacts] returns, in the paginated listing or in any of the four
    searches, is a row of the table that belongs to the user. *)
Theorem contact_reads_are_own (user : User) (db : Contacts) :
  (∀ contact_id c,
     repository_contacts.get_contact contact_id user db = Some c →
     c ∈ contacts db
     ∧ contact_models.id c = contact_id
     ∧ contact_models.user_id c = Some (models.id user))
  ∧ (∀ skip limit first_name last_name email birthdays today c,
       c ∈ repository_contacts.get_contacts skip limit first_name last_name
             email birthdays today user db →
       c ∈ contacts db
       ∧ contact_models.user_id c = Some (models.id user)).
Proof.
  split.
  - intros cid c (i & (Hi & ? & ?)%find_contact_Some)%get_contact_Some.
    eauto using list_elem_of_lookup_2.
  - intros skip limit fn ln em b today c.
    unfold repository_contacts.get_contacts.
    destruct (_ && _).
    { intros Hc. apply (subseteq_take limit), (subseteq_drop skip) in Hc.
      revert Hc.
      rewrite !list_elem_of_In, filter_In, owned_by_true. tauto. }
    repeat destruct (_ <? _)%nat;
      rewrite !list_elem_of_In, filter_In, andb_true_iff, owned_by_true;
      tauto.
Qed.
End ContactsReads.

Lemma contact_reads_are_own_witness :
  contact_models.user_id contact_fixtures.al = Some 1.
Proof.
  exact (proj2 (proj2 (proj1 (@contact_reads_are_own contact_fixtures.dialect
                                fixtures.alice contact_fixtures.table)
                         3 contact_fixtures.al eq_refl))).
Defined.

(** ** Writes of the contacts repository *)

Lemma contacts_wf_empty : contacts_wf empty_contacts.
Proof. split; [apply NoDup_nil_2|apply Forall_nil_2]. Qed.

Lemma contacts_wf_unique db i j c c' :
  contacts_wf db →
  contacts db !! i = Some c → contacts db !! j = Some c' →
  contact_models.id c = contact_models.id c' → i = j.
Proof.
  intros [Hnd _] Hi Hj Hid.
  eapply (NoDup_lookup _ i j (contact_models.id c)); [done|..];
    rewrite list_lookup_fmap; [by rewrite Hi|by rewrite Hj, Hid].
Qed.

(** A contact of the table that is not the caller's is not found under its
    id by the caller. *)
Lemma foreign_contact_not_found user db c :
  contacts_wf db →
  c ∈ contacts db →
  contact_models.user_id c ≠ Some (models.id user) →
  repository_contacts.get_contact (contact_models.id c) user db = None.
Proof.
  intros Hwf [i Hi]%list_elem_of_lookup Hforeign.
  destruct (repository_contacts.get_contact _ _ _) as [c'|] eqn:Hg; [|done].
  apply get_contact_Some in Hg as (j & (Hj & Hid & Hown)%find_contact_Some).
  assert (i = j) by (by eapply contacts_wf_unique). simplify_eq.
Qed.

(** X16: a write addressed to an id under which the caller has no contact
    answers [None] and leaves the table exactly as it is; in a table with
    unique ids this is so for every contact that belongs to somebody else:
    the caller can neither read, update nor remove it. *)
Theorem contact_writes_need_an_own_row (contact_id : Z) (user : User)
    (db : Contacts) :
  (repository_contacts.get_contact contact_id user db = None →
     repository_contacts.remove_contact contact_id user db = (None, db)
     ∧ (∀ body,
          repository_contacts.update_contact contact_id body user db
            = (None, db))
     ∧ (∀ body,
          repository_contacts.update_date_of_birth_contact contact_id body
            user db = (None, db)))
  ∧ (contacts_wf db →
     ∀ c, c ∈ contacts db → contact_models.id c = contact_id →
       contact_models.user_id c ≠ Some (models.id user) →
       repository_contacts.get_contact contact_id user db = None).
Proof.
  split.
  - intros Hn%get_contact_None.
    unfold repository_contacts.remove_contact,
      repository_contacts.update_contact,
      repository_contacts.update_date_of_birth_contact.
    by rewrite Hn.
  - intros Hwf c Hc <- Hforeign. by apply foreign_contact_not_found.
Qed.

Lemma contact_writes_need_an_own_row_witness :
  repository_contacts.remove_contact 2 fixtures.alice contact_fixtures.table
    = (None, contact_fixtures.table).
Proof.
  exact (proj1 (proj1 (contact_writes_need_an_own_row 2 fixtures.alice
                         contact_fixtures.table) eq_refl)).
Defined.

(** X17: whatever a user creates, removes or updates, the contacts of all
    other users stay exactly as they are, row for row and in order. *)
Theorem contact_writes_keep_others (user : User) (db : Contacts) :
  (∀ body now,
     contacts_of_others user
       (repository_contacts.create_contact body user now db).2
       = contacts_of_others user db)
  ∧ (∀ contact_id,
       contacts_of_others user
         (repository_contacts.remove_contact contact_id user db).2
         = contacts_of_others user db)
  ∧ (∀ contact_id body,
       contacts_of_others user
         (repository_contacts.update_contact contact_id body user db).2
         = contacts_of_others user db)
  ∧ (∀ contact_id body,
       contacts_of_others user
         (repository_contacts.update_date_of_birth_contact contact_id body
            user db).2
         = contacts_of_others user db).
Proof.
  assert (Hown : ∀ cid i c,
    repository_contacts.find_contact cid user db = Some (i, c) →
    contacts db !! i = Some c
    ∧ negb (repository_contacts.owned_by user c) = false).
  { intros cid i c (Hi & _ & Hu)%find_contact_Some. split; [done|].
    apply negb_false_iff. by apply owned_by_true. }
  unfold contacts_of_others. split_and!.
  - intros body now. simpl. rewrite List.filter_app. simpl.
    unfold repository_contacts.owned_by at 2. simpl.
    rewrite bool_decide_eq_true_2 by done. simpl. by rewrite app_nil_r.
  - intros cid. unfold repository_contacts.remove_contact.
    destruct (repository_contacts.find_contact cid user db) as [[i c]|] eqn:Hf;
      [|done].
    destruct (Hown _ _ _ Hf) as [Hi Hc]. simpl.
    by eapply filter_delete_false.
  - intros cid body. unfold repository_contacts.update_contact.
    destruct (repository_contacts.find_contact cid user db) as [[i c]|] eqn:Hf;
      [|done].
    destruct (Hown _ _ _ Hf) as [Hi Hc]. simpl.
    by eapply filter_insert_false.
  - intros cid body. unfold repository_contacts.update_date_of_birth_contact.
    destruct (repository_contacts.find_contact cid user db) as [[i c]|] eqn:Hf;
      [|done].
    destruct (Hown _ _ _ Hf) as [Hi Hc]. simpl.
    by eapply filter_insert_false.
Qed.

(** The writes keep ids unique and below the sequence. *)
Lemma contacts_wf_create body user now db :
  contacts_wf db →
  contacts_wf (repository_contacts.create_contact body user now db).2.
Proof.
  intros [Hnd Hlt]. split; simpl.
  - rewrite fmap_app. apply NoDup_app. split_and!; [done| |].
    + intros x (c & -> & Hc)%list_elem_of_fmap
        [Heq|[]%elem_of_nil]%elem_of_cons.
      rewrite Forall_forall in Hlt. specialize (Hlt _ Hc). simpl in *. lia.
    + apply NoDup_singleton.
  - apply Forall_app. split.
    + eapply Forall_impl; [done|]. intros c ?. simpl in *. lia.
    + apply Forall_singleton. simpl. lia.
Qed.

Lemma contacts_wf_remove contact_id user db :
  contacts_wf db →
  contacts_wf (repository_contacts.remove_contact contact_id user db).2.
Proof.
  intros [Hnd Hlt]. unfold repository_contacts.remove_contact.
  destruct (repository_contacts.find_contact _ _ _) as [[i c]|]; [|done].
  split; simpl.
  - rewrite list_fmap_delete. eapply sublist_NoDup; [done|apply sublist_delete].
  - by apply Forall_delete.
Qed.

Lemma contacts_wf_replace db i c c' :
  contacts_wf db →
  contacts db !! i = Some c →
  contact_models.id c' = contact_models.id c →
  contacts_wf (mkContacts (<[i := c']> (contacts db)) (next_contact_id db)).
Proof.
  intros [Hnd Hlt] Hi Hid. split; simpl.
  - rewrite list_fmap_insert, Hid, list_insert_id; [done|].
    by rewrite list_lookup_fmap, Hi.
  - apply Forall_insert; [done|]. rewrite Hid.
    rewrite Forall_forall in Hlt. apply Hlt.
    by eapply list_elem_of_lookup_2.
Qed.

Lemma contacts_wf_update contact_id body user db :
  contacts_wf db →
  contacts_wf (repository_contacts.update_contact contact_id body user db).2.
Proof.
  intros Hwf. unfold repository_contacts.update_contact.
  destruct (repository_contacts.find_contact _ _ _) as [[i c]|] eqn:Hf; [|done].
  apply find_contact_Some in Hf as (Hi & _). simpl.
  by eapply contacts_wf_replace.
Qed.

Lemma contacts_wf_update_date_of_birth contact_id body user db :
  contacts_wf db →
  contacts_wf
    (repository_contacts.update_date_of_birth_contact contact_id body user db).2.
Proof.
  intros Hwf. unfold repository_contacts.update_date_of_birth_contact.
  destruct (repository_contacts.find_contact _ _ _) as [[i c]|] eqn:Hf; [|done].
  apply find_contact_Some in Hf as (Hi & _). simpl.
  by eapply contacts_wf_replace.
Qed.

Lemma find_contact_snoc_fresh contact_id user db c :
  Forall (λ x, contact_models.id x < contact_models.id c) (contacts db) →
  snd <$> list_find (repository_contacts.is_contact contact_id user)
            (contacts db ++ [c])%list
  = match repository_contacts.get_contact contact_id user db with
    | Some x => Some x
    | None =>
        if decide (repository_contacts.is_contact contact_id user c)
        then Some c else None
    end.
Proof.
  intros _. unfold repository_contacts.get_contact,
    repository_contacts.find_contact.
  induction (contacts db) as [|x l IH]; simpl.
  - by case_decide.
  - destruct (decide (repository_contacts.is_contact contact_id user x));
      simpl; [done|]. by rewrite !snd_shift.
Qed.

(** X18: in a table whose ids are unique and below the sequence, the
    contact that [create_contact] returns carries the fields of the body,
    the caller as owner and a new id; the caller finds it under that id,
    nobody else does, and what is found under every other id is as
    before. *)
Theorem create_then_get_contact (body : contact_schemas.ContactModel)
    (user : User) (now : Z) (db : Contacts) :
  contacts_wf db →
  let c := (repository_contacts.create_contact body user now db).1 in
  let db' := (repository_contacts.create_contact body user now db).2 in
  repository_contacts.get_contact (contact_models.id c) user db' = Some c
  ∧ contact_models.first_name c = contact_schemas.first_name body
  ∧ contact_models.last_name c = contact_schemas.last_name body
  ∧ contact_models.email c = contact_schemas.email body
  ∧ contact_models.phone c = contact_schemas.phone body
  ∧ contact_models.date_of_birth c = contact_schemas.date_of_birth body
  ∧ contact_models.user_id c = Some (models.id user)
  ∧ (∀ x, x ∈ contacts db → contact_models.id x ≠ contact_models.id c)
  ∧ (∀ other, models.id other ≠ models.id user →
       repository_contacts.get_contact (contact_models.id c) other db' = None)
  ∧ (∀ contact_id other, contact_id ≠ contact_models.id c →
       repository_contacts.get_contact contact_id other db'
         = repository_contacts.get_contact contact_id other db)
  ∧ contacts_wf db'.
Proof.
  intros Hwf c db'. pose proof Hwf as [Hnd Hlt].
  assert (Hfresh : ∀ other,
    repository_contacts.get_contact (next_contact_id db) other db = None).
  { intros other.
    destruct (repository_contacts.get_contact _ _ _) as [x|] eqn:Hg; [|done].
    apply get_contact_Some in Hg as (i & (Hi & Hid & _)%find_contact_Some).
    rewrite Forall_forall in Hlt.
    specialize (Hlt _ (list_elem_of_lookup_2 _ _ _ Hi)). simpl in Hlt. lia. }
  assert (Hget : ∀ cid other,
    repository_contacts.get_contact cid other db'
    = match repository_contacts.get_contact cid other db with
      | Some x => Some x
      | None => if decide (repository_contacts.is_contact cid other c)
                then Some c else None
      end).
  { intros cid other. unfold repository_contacts.get_contact at 1,
      repository_contacts.find_contact. subst db'. simpl.
    apply find_contact_snoc_fresh. by subst c. }
  split_and!; try done.
  - rewrite Hget. subst c. simpl. rewrite Hfresh. by rewrite decide_True.
  - intros x Hx. rewrite Forall_forall in Hlt. specialize (Hlt _ Hx).
    subst c. simpl in *. lia.
  - intros other Hne. rewrite Hget. subst c. simpl. rewrite Hfresh.
    rewrite decide_False; [done|]. intros [_ Hu]. simpl in Hu. congruence.
  - intros cid other Hne. rewrite Hget.
    destruct (repository_contacts.get_contact cid other db); [done|].
    rewrite decide_False; [done|]. intros [Hid _]. by subst c.
  - by apply contacts_wf_create.
Qed.

Lemma contacts_wf_table : contacts_wf contact_fixtures.table.
Proof.
  split.
  - apply (bool_decide_unpack _). by vm_compute.
  - repeat constructor.
Defined.

Lemma create_then_get_contact_witness :
  repository_contacts.get_contact 4 fixtures.alice
    (repository_contacts.create_contact contact_fixtures.new_contact
       fixtures.alice 50 contact_fixtures.table).2
  = Some (repository_contacts.create_contact contact_fixtures.new_contact
            fixtures.alice 50 contact_fixtures.table).1.
Proof.
  exact (proj1 (create_then_get_contact contact_fixtures.new_contact
                  fixtures.alice 50 contact_fixtures.table contacts_wf_table)).
Defined.

(** X19: removing a contact the caller has returns that contact and takes
    exactly one row out of the table; with unique ids the caller no longer
    finds it, and what anybody finds under any other id is as before. *)
Theorem remove_then_get_contact (contact_id : Z) (user : User) (c : Contact)
    (db : Contacts) :
  repository_contacts.get_contact contact_id user db = Some c →
  let r := repository_contacts.remove_contact contact_id user db in
  r.1 = Some c
  ∧ S (length (contacts r.2)) = length (contacts db)
  ∧ next_contact_id r.2 = next_contact_id db
  ∧ (∀ cid other, cid ≠ contact_id →
       repository_contacts.get_contact cid other r.2
         = repository_contacts.get_contact cid other db)
  ∧ (contacts_wf db →
       repository_contacts.get_contact contact_id user r.2 = None
       ∧ c ∉ contacts r.2).
Proof.
  intros (i & Hf)%get_contact_Some r. subst r.
  unfold repository_contacts.remove_contact. rewrite Hf. simpl.
  pose proof (find_contact_Some _ _ _ _ _ Hf) as (Hi & Hid & Hown).
  split_and!; [done| |done| |].
  - rewrite length_delete by eauto. pose proof (lookup_lt_Some _ _ _ Hi). lia.
  - intros cid other Hne. unfold repository_contacts.get_contact,
      repository_contacts.find_contact. simpl.
    eapply list_find_delete_other; [done|]. intros [? _]. congruence.
  - intros Hwf.
    assert (Hgone : ∀ x, x ∈ delete i (contacts db) →
              contact_models.id x ≠ contact_id).
    { intros x [j Hj]%list_elem_of_lookup Hx.
      rewrite list_lookup_delete in Hj. case_decide.
      - assert (i = j) by (eapply contacts_wf_unique; [done..|congruence]).
        lia.
      - assert (i = S j) by (eapply contacts_wf_unique; [done..|congruence]).
        lia. }
    split.
    + unfold repository_contacts.get_contact,
        repository_contacts.find_contact. simpl.
      apply fmap_None, list_find_None, Forall_forall.
      intros x Hx [Hxid _]. by eapply Hgone.
    + intros Hc. by eapply Hgone.
Qed.

Lemma remove_then_get_contact_witness :
  repository_contacts.get_contact 3 fixtures.alice
    (repository_contacts.remove_contact 3 fixtures.alice
       contact_fixtures.table).2 = None.
Proof.
  exact (proj1 (proj2 (proj2 (proj2 (proj2
           (remove_then_get_contact 3 fixtures.alice contact_fixtures.al
              contact_fixtures.table eq_refl)))) contacts_wf_table)).
Defined.

Lemma replace_then_get contact_id user db i c c' :
  repository_contacts.find_contact contact_id user db = Some (i, c) →
  contact_models.id c' = contact_models.id c →
  contact_models.user_id c' = contact_models.user_id c →
  let db' := mkContacts (<[i := c']> (contacts db)) (next_contact_id db) in
  repository_contacts.get_contact contact_id user db' = Some c'
  ∧ length (contacts db') = length (contacts db)
  ∧ (∀ cid other, cid ≠ contact_id →
       repository_contacts.get_contact cid other db'
         = repository_contacts.get_contact cid other db).
Proof.
  intros Hf Hid Hown db'.
  pose proof (find_contact_Some _ _ _ _ _ Hf) as (Hi & Hcid & Hu).
  split_and!.
  - unfold repository_contacts.get_contact, repository_contacts.find_contact.
    simpl. erewrite list_find_insert_same; [done|exact Hf|].
    split; congruence.
  - apply length_insert.
  - intros cid other Hne. unfold repository_contacts.get_contact,
      repository_contacts.find_contact. simpl.
    eapply list_find_insert_other; [done|..]; intros [? _]; congruence.
Qed.

(** X20: updating a contact the caller has returns the row with the five
    fields of the body and with its id, owner and creation time kept; the
    caller then finds exactly that row under the id, the table keeps its
    length, and what anybody finds under any other id is as before. *)
Theorem update_then_get_contact (contact_id : Z)
    (body : contact_schemas.ContactModel) (user : User) (c : Contact)
    (db : Contacts) :
  repository_contacts.get_contact contact_id user db = Some c →
  let r := repository_contacts.update_contact contact_id body user db in
  let c' :=
    contact_models.mkContact (contact_models.id c)
      (contact_schemas.first_name body) (contact_schemas.last_name body)
      (contact_schemas.email body) (contact_schemas.phone body)
      (contact_schemas.date_of_birth body) (contact_models.created_at c)
      (contact_models.user_id c) in
  r.1 = Some c'
  ∧ repository_contacts.get_contact contact_id user r.2 = Some c'
  ∧ length (contacts r.2) = length (contacts db)
  ∧ (∀ cid other, cid ≠ contact_id →
       repository_contacts.get_contact cid other r.2
         = repository_contacts.get_contact cid other db).
Proof.
  intros (i & Hf)%get_contact_Some r c'. subst r.
  unfold repository_contacts.update_contact. rewrite Hf. simpl.
  split; [done|]. by apply (replace_then_get contact_id user db i c c').
Qed.

Lemma update_then_get_contact_witness :
  contact_models.first_name <$>
    repository_contacts.get_contact 3 fixtures.alice
      (repository_contacts.update_contact 3 contact_fixtures.new_contact
         fixtures.alice contact_fixtures.table).2
  = Some "Cy".
Proof.
  exact (f_equal (fmap contact_models.first_name)
           (proj1 (proj2 (update_then_get_contact 3
                            contact_fixtures.new_contact fixtures.alice
                            contact_fixtures.al contact_fixtures.table
                            eq_refl)))).
Defined.

(** X21: the date-of-birth update changes that one field of the caller's
    contact and nothing else: it gives the same row and the same table as a
    full update whose body repeats the contact's other fields. *)
Theorem update_date_of_birth_only (contact_id : Z)
    (body : contact_schemas.ContactUpdate) (user : User) (c : Contact)
    (db : Contacts) :
  repository_contacts.get_contact contact_id user db = Some c →
  let r :=
    repository_contacts.update_date_of_birth_contact contact_id body user db in
  let c' :=
    contact_models.mkContact (contact_models.id c)
      (contact_models.first_name c) (contact_models.last_name c)
      (contact_models.email c) (contact_models.phone c)
      (contact_schemas.cu_date_of_birth body) (contact_models.created_at c)
      (contact_models.user_id c) in
  r.1 = Some c'
  ∧ repository_contacts.get_contact contact_id user r.2 = Some c'
  ∧ r = repository_contacts.update_contact contact_id
          (contact_schemas.mkContactModel (contact_models.first_name c)
             (contact_models.last_name c)
             (contact_schemas.cu_date_of_birth body)
             (contact_models.email c) (contact_models.phone c))
          user db.
Proof.
  intros (i & Hf)%get_contact_Some r c'. subst r.
  unfold repository_contacts.update_date_of_birth_contact,
    repository_contacts.update_contact. rewrite Hf. simpl.
  split_and!; [done| |done].
  by apply (replace_then_get contact_id user db i c c').
Qed.

Lemma update_date_of_birth_only_witness :
  (repository_contacts.update_date_of_birth_contact 1
     (contact_schemas.mkContactUpdate (mkDate 1991 5 20)) fixtures.alice
     contact_fixtures.table).1
  = Some (contact_models.mkContact 1 "Ann" "Lee" (Some "ann@example.com")
            None (mkDate 1991 5 20) 10 (Some 1)).
Proof.
  exact (proj1 (update_date_of_birth_only 1
                  (contact_schemas.mkContactUpdate (mkDate 1991 5 20))
                  fixtures.alice contact_fixtures.ann contact_fixtures.table
                  eq_refl)).
Defined.

(** ** The listing and the searches *)

Section Listing.
Context `{SqlDialect}.


End Listing.


(** * The contacts routes *)

Section ContactRoutes.
Context `{Jose, SqlDialect}.

(** X24: every contacts route runs behind the bearer guard: when the guard
    raises, the route raises the same exception and the contacts table is
    left exactly as it is, whatever the request asked for. *)
Theorem contact_routes_behind_guard (token : string) (now : Z) (e : exn)
    (w w1 : World) (db : Contacts) :
  auth_service.get_current_user token now w = (Raise e, w1) →
  (∀ skip limit first_name last_name email birthdays today,
     routes_contacts.read_contacts skip limit first_name last_name email
       birthdays today token now (w, db) = (Raise e, (w1, db)))
  ∧ (∀ contact_id,
       routes_contacts.read_contact contact_id token now (w, db)
         = (Raise e, (w1, db)))
  ∧ (∀ body,
       routes_contacts.create_contact body token now (w, db)
         = (Raise e, (w1, db)))
  ∧ (∀ body contact_id,
       routes_contacts.update_contact body contact_id token now (w, db)
         = (Raise e, (w1, db)))
  ∧ (∀ body contact_id,
       routes_contacts.update_date_of_birth_contact body contact_id token now
         (w, db) = (Raise e, (w1, db)))
  ∧ (∀ contact_id,
       routes_contacts.remove_contact contact_id token now (w, db)
         = (Raise e, (w1, db))).
Proof.
  intros Hg.
  unfold routes_contacts.read_contacts, routes_contacts.read_contact,
    routes_contacts.create_contact, routes_contacts.update_contact,
    routes_contacts.update_date_of_birth_contact,
    routes_contacts.remove_contact, routes_contacts.with_current_user.
  simpl. rewrite Hg. done.
Qed.

(** X25: a user who passes the guard cannot reach a contact of somebody
    else.  In a table with unique ids, reading, updating, patching or
    removing such a contact by its id answers 404 "Contact not found" and
    leaves the contacts table exactly as it is, and no listing or search
    returns it. *)
Theorem contact_routes_hide_foreign_contacts (token : string) (now : Z)
    (current_user : User) (w w1 : World) (c : Contact) (db : Contacts) :
  auth_service.get_current_user token now w = (Return current_user, w1) →
  contacts_wf db →
  c ∈ contacts db →
  contact_models.user_id c ≠ Some (models.id current_user) →
  let not_found :=
    (Raise (A := Contact)
       (HTTPException HTTP_404_NOT_FOUND "Contact not found"),
     (w1, db)) in
  routes_contacts.read_contact (contact_models.id c) token now (w, db)
    = not_found
  ∧ (∀ body,
       routes_contacts.update_contact body (contact_models.id c) token now
         (w, db) = not_found)
  ∧ (∀ body,
       routes_contacts.update_date_of_birth_contact body (contact_models.id c)
         token now (w, db) = not_found)
  ∧ routes_contacts.remove_contact (contact_models.id c) token now (w, db)
    = not_found
  ∧ (∀ skip limit first_name last_name email birthdays today l s,
       routes_contacts.read_contacts skip limit first_name last_name email
         birthdays today token now (w, db) = (Return l, s) →
       (c ∉ l) ∧ s = (w1, db)).
Proof.
  intros Hg Hwf Hc Hforeign not_found. subst not_found.
  pose proof (foreign_contact_not_found current_user db c Hwf Hc Hforeign)
    as Hn.
  pose proof (get_contact_None _ _ _ Hn) as Hf.
  unfold routes_contacts.read_contacts, routes_contacts.read_contact,
    routes_contacts.update_contact,
    routes_contacts.update_date_of_birth_contact,
    routes_contacts.remove_contact, routes_contacts.with_current_user,
    routes_contacts.or_not_found, repository_contacts.update_contact,
    repository_contacts.update_date_of_birth_contact,
    repository_contacts.remove_contact.
  simpl. rewrite Hg, Hn, Hf. simpl. split_and!; try done.
  intros skip limit fn ln em b today l s [= <- <-]. split; [|done].
  intros Hin.
  by apply (proj2 (contact_reads_are_own current_user db)) in Hin as [_ ?].
Qed.
End ContactRoutes.

Lemma contact_routes_behind_guard_witness :
  @routes_contacts.remove_contact fixtures.jose 1 "alice.refresh.1" 150
    (fixtures.w_alice, contact_fixtures.table)
  = (Raise (HTTPException HTTP_401_UNAUTHORIZED
              "Could not validate credentials"),
     (fixtures.w_alice, contact_fixtures.table)).
Proof.
  exact (proj2 (proj2 (proj2 (proj2 (proj2
           (@contact_routes_behind_guard fixtures.jose contact_fixtures.dialect
              "alice.refresh.1" 150 _ fixtures.w_alice fixtures.w_alice
              contact_fixtures.table eq_refl))))) 1).
Defined.

Lemma guard_returns_alice :
  @auth_service.get_current_user fixtures.jose "alice.access.1" 150
    fixtures.w_alice
  = (Return fixtures.alice,
     world_after (repository_users.get_user_by_email fixtures.alice_email)
       fixtures.w_alice).
Proof. reflexivity. Defined.

Lemma contact_routes_hide_foreign_contacts_witness :
  @routes_contacts.remove_contact fixtures.jose 2 "alice.access.1" 150
    (fixtures.w_alice, contact_fixtures.table)
  = (Raise (HTTPException HTTP_404_NOT_FOUND "Contact not found"),
     (world_after (repository_users.get_user_by_email fixtures.alice_email)
        fixtures.w_alice,
      contact_fixtures.table)).
Proof.
  refine (proj1 (proj2 (proj2 (proj2
            (@contact_routes_hide_foreign_contacts fixtures.jose
               contact_fixtures.dialect "alice.access.1" 150 fixtures.alice
               fixtures.w_alice _ contact_fixtures.bo contact_fixtures.table
               guard_returns_alice contacts_wf_table _ _))))).
  - apply (bool_decide_unpack _). by vm_compute.
  - discriminate.
Defined.
